(** * Blocked matrix multiplication and its thread-scaling harness

    A shallow embedding of [blocked-matrix-multiplication.cpp]: the three
    multiplication strategies, the OpenMP [parallel for] regions they open,
    and [main] with its prompt loop, its batch branch, its thread sweep and
    its report table.

    - [double] values are IEEE-754 binary64 numbers ([spec_float] with
      precision 53 and maximal exponent 1024); no algebraic law of the reals
      is assumed of [+], [*] or [/].
    - A [vector<vector<double>>] is a list of rows.  [operator[]] is
      unchecked, so an access outside the vector has no defined result:
      [mget] and [mset] return [None] there.
    - The three matrices live in a store addressed by name, because the
      strategies receive them by (non-const) reference.
    - Every [+], [*], [-] and [/] on doubles rounds to double (no fused
      multiply-add, no wider intermediate format).
    - [int] values are integers of [Z]; [/] and [%] are C++'s truncating
      [Z.quot] and [Z.rem], undefined for a zero divisor.  No operation on
      the paths followed below leaves the range of [int], except the
      narrowing of [method] and of the thread count to [short], which is
      written out.
    - What the program takes from outside is given by a [runtime]: the clock
      readings, the scheduling of every parallel region, the random draws
      and whether the matrices fit in memory.  The numbers read from [cin]
      are those that were successfully extracted; when none is left the
      program waits. *)

From Stdlib Require Import ZArith Lia Floats.SpecFloat.
From stdpp Require Import base option list list_numbers gmap strings.

Open Scope Z_scope.

(** ** Doubles *)

Module Double.

Abbreviation double := spec_float.

Definition prec : Z := 53.
Definition emax : Z := 1024.

Definition add : double → double → double := SFadd prec emax.
Definition sub : double → double → double := SFsub prec emax.
Definition mul : double → double → double := SFmul prec emax.
Definition div : double → double → double := SFdiv prec emax.

(** Conversion of an integer ([int], [short]) to [double]. *)
Definition of_int (z : Z) : double := binary_normalize prec emax z 0 false.

Definition zero : double := S754_zero false.
Definition one : double := Eval vm_compute in of_int 1.

(** Neither a zero, nor an infinity, nor a NaN. *)
Definition is_finite_nonzero (d : double) : bool :=
  match d with S754_finite _ _ _ => true | _ => false end.

Definition is_inf_or_nan (d : double) : bool :=
  match d with S754_infinity _ | S754_nan => true | _ => false end.

(** [d == 0] in C++: either signed zero. *)
Definition is_zero (d : double) : bool :=
  match d with S754_zero _ => true | _ => false end.

End Double.

Import Double.

(** ** Matrices: [vector<vector<double>>] *)

Abbreviation matrix := (list (list double)).

(** [m[i][j]] read with [int] indices. *)
Definition mget (m : matrix) (i j : Z) : option double :=
  if decide (0 ≤ i ∧ 0 ≤ j) then
    row ← m !! Z.to_nat i; row !! Z.to_nat j
  else None.

(** [m[i][j] = v]. *)
Definition mset (m : matrix) (i j : Z) (v : double) : option matrix :=
  if decide (0 ≤ i ∧ 0 ≤ j) then
    row ← m !! Z.to_nat i;
    _ ← row !! Z.to_nat j;
    Some (<[Z.to_nat i := <[Z.to_nat j := v]> row]> m)
  else None.

(** The entry of an in-range cell, as a total function. *)
Definition entry (m : matrix) (i j : Z) : double := default zero (mget m i j).

(** [m] has [N] rows of [N] columns. *)
Definition square (N : Z) (m : matrix) : Prop :=
  length m = Z.to_nat N ∧ Forall (λ row, length row = Z.to_nat N) m.

Definition squareb (N : Z) (m : matrix) : bool :=
  bool_decide (length m = Z.to_nat N) &&
  forallb (λ row, bool_decide (length row = Z.to_nat N)) m.

(** [vector<vector<double>> c(N, vector<double>(N, 0.0))]. *)
Definition zeros (N : Z) : matrix :=
  replicate (Z.to_nat N) (replicate (Z.to_nat N) zero).

(** ** The store of matrices and the multiply-accumulate statement *)

Abbreviation store := (gmap string matrix).

(** One execution of the innermost statement, at indices [(i, j, k)]. *)
Abbreviation action := (Z * Z * Z)%type.

(** [c[i][j] = c[i][j] + a[i][k] * b[k][j]], through the references
    [a], [b] and [c]. *)
Definition mac (a b c : string) (x : action) (m : store) : option store :=
  let '(i, j, k) := x in
  A ← m !! a;
  B ← m !! b;
  C ← m !! c;
  aik ← mget A i k;
  bkj ← mget B k j;
  cij ← mget C i j;
  C' ← mset C i j (add cij (mul aik bkj));
  Some (<[c := C']> m).

(** [c[i][j] = v]. *)
Definition assign (c : string) (i j : Z) (v : double) (m : store)
    : option store :=
  C ← m !! c;
  C' ← mset C i j v;
  Some (<[c := C']> m).

(** A sequential [for] loop over the values [l] of its index; the body may
    be undefined. *)
Fixpoint for_ {A S : Type} (l : list A) (body : A → S → option S) (s : S)
    : option S :=
  match l with
  | [] => Some s
  | x :: l' => s' ← body x s; for_ l' body s'
  end.

(** The least value of an [int] (32 bits, two's complement). *)
Definition INT_MIN : Z := -2147483648.

(** C++'s [N % d] and [N / d] on [int]: truncation towards zero.  There is
    no defined result for [d = 0], nor for [INT_MIN] and [d = -1], whose
    quotient is not an [int]. *)
Definition crem (n d : Z) : option Z :=
  if decide (d = 0) then None
  else if decide (n = INT_MIN ∧ d = -1) then None
  else Some (Z.rem n d).

Definition cquot (n d : Z) : option Z :=
  if decide (d = 0) then None
  else if decide (n = INT_MIN ∧ d = -1) then None
  else Some (n ÷ d).

(** Narrowing of an [int] to [short] (16 bits, two's complement). *)
Definition to_short (z : Z) : Z := (z + 32768) `mod` 65536 - 32768.

(** ** The world the program runs in *)

(** [struct Result]. *)
Record Result := { timestamp : double; threads : Z }.

(** What the OpenMP runtime decides for one parallel region: the thread
    [owner q `mod` T] of a team of [T] threads executes iteration [q],
    and [pick n] selects, among the threads that still have work, the one
    that performs the [n]-th step of the region. *)
Record schedule := { owner : Z → nat; pick : nat → nat }.

Inductive exn := length_error | bad_alloc.

(** What [cout] receives.  A [double] is written in [fixed] notation with
    the precision the stream has at that moment; [setw] padding is not
    represented. *)
Inductive item :=
  | Text (s : string)
  | Num (z : Z)
  | Dbl (digits : nat) (d : double)
  | What (e : exn)
  | Endl.

Inductive strategy := Blocked | Standard | Sequential.

(** A record of one entry into a multiplication strategy: which one, with
    how many threads, and what the output matrix held at that moment.  The
    list of these records is ghost state: the program does not read it. *)
Record call := { strategy_of : strategy; threads_of : Z; output_before : matrix }.

Record world := {
  mem : store;          (* the matrices *)
  ticks : nat;          (* readings of omp_get_wtime() made so far *)
  regions : nat;        (* parallel regions opened so far *)
  fills : nat;          (* calls of initializeMatrix made so far *)
  precision : nat;      (* cout.precision() *)
  out : list item;      (* what was written to cout, oldest first *)
  stdin : list Z;       (* the numbers cin will extract, in order *)
  calls : list call     (* ghost: the strategy calls made so far *)
}.

Definition set_mem (m : store) (w : world) : world :=
  {| mem := m; ticks := ticks w; regions := regions w; fills := fills w;
     precision := precision w; out := out w; stdin := stdin w;
     calls := calls w |}.

Definition next_tick (w : world) : world :=
  {| mem := mem w; ticks := S (ticks w); regions := regions w;
     fills := fills w; precision := precision w; out := out w;
     stdin := stdin w; calls := calls w |}.

Definition next_region (w : world) : world :=
  {| mem := mem w; ticks := ticks w; regions := S (regions w);
     fills := fills w; precision := precision w; out := out w;
     stdin := stdin w; calls := calls w |}.

Definition next_fill (w : world) : world :=
  {| mem := mem w; ticks := ticks w; regions := regions w;
     fills := S (fills w); precision := precision w; out := out w;
     stdin := stdin w; calls := calls w |}.

(** [cout << setprecision(n)]. *)
Definition setprecision (n : nat) (w : world) : world :=
  {| mem := mem w; ticks := ticks w; regions := regions w; fills := fills w;
     precision := n; out := out w; stdin := stdin w; calls := calls w |}.

(** [cout << x]. *)
Definition put (x : item) (w : world) : world :=
  {| mem := mem w; ticks := ticks w; regions := regions w; fills := fills w;
     precision := precision w; out := out w ++ [x]; stdin := stdin w;
     calls := calls w |}.

(** [cout << d] for a [double] [d]. *)
Definition put_double (d : double) (w : world) : world :=
  put (Dbl (precision w) d) w.

(** [cin >> x]: the next number of the input, if one has arrived. *)
Definition cin (w : world) : option (Z * world) :=
  match stdin w with
  | [] => None
  | z :: rest =>
      Some (z, {| mem := mem w; ticks := ticks w; regions := regions w;
                  fills := fills w; precision := precision w; out := out w;
                  stdin := rest; calls := calls w |})
  end.

Definition log_call (s : strategy) (n : Z) (c : string) (w : world) : world :=
  {| mem := mem w; ticks := ticks w; regions := regions w; fills := fills w;
     precision := precision w; out := out w; stdin := stdin w;
     calls := calls w ++ [{| strategy_of := s; threads_of := n;
                             output_before := default [] (mem w !! c) |}] |}.

(** A statement on the store, run in the world. *)
Definition lift (f : store → option store) (w : world) : option world :=
  m ← f (mem w); Some (set_mem m w).

Definition initial (input : list Z) : world :=
  {| mem := ∅; ticks := 0; regions := 0; fills := 0; precision := 6;
     out := []; stdin := input; calls := [] |}.

(** ** Parallel regions

    A step of a thread is one execution of the innermost statement
    [c[i][j] = c[i][j] + a[i][k] * b[k][j]].  A region is run by a team:
    the iterations of the loop under the pragma are dealt to the threads,
    every thread performs the steps of its iterations in program order, and
    the steps of different threads are interleaved in any order the
    schedule chooses.  Steps are taken as atomic: the steps of two threads
    of one region never touch a common cell of [c] and nothing writes [a]
    or [b], so no finer interleaving of their reads and writes can be
    observed. *)

Definition has_work {A : Type} (ts : list (list A)) (t : nat) : bool :=
  match ts !! t with Some (_ :: _) => true | _ => false end.

(** The threads of a team that have not finished their share. *)
Definition live {A : Type} (ts : list (list A)) : list nat :=
  filter (λ t, has_work ts t) (seq 0 (length ts)).

(** The order in which a team performs the steps of its threads: at step
    [n] the thread selected by [choose n] among the live ones performs its
    next step.  Every thread runs its own steps in program order. *)
Fixpoint interleave_from {A : Type} (fuel n : nat) (choose : nat → nat)
    (ts : list (list A)) : list A :=
  match fuel with
  | O => []
  | S fuel' =>
      let l := live ts in
      match l !! (choose n `mod` length l)%nat with
      | None => []
      | Some t =>
          match ts !! t with
          | Some (x :: rest) =>
              x :: interleave_from fuel' (S n) choose (<[t := rest]> ts)
          | _ => []
          end
      end
  end.

Definition interleave {A : Type} (choose : nat → nat) (ts : list (list A))
    : list A :=
  interleave_from (length (concat ts)) 0 choose ts.

(** The share of thread [t] in a team of [T]: the iterations it owns, in
    ascending order, each contributing the steps [work q] of its body. *)
Definition share {A : Type} (T : nat) (own : Z → nat) (iters : list Z)
    (work : Z → list A) (t : nat) : list A :=
  filter (λ q, (own q `mod` T)%nat = t) iters ≫= work.

Definition team {A : Type} (T : nat) (own : Z → nat) (iters : list Z)
    (work : Z → list A) : list (list A) :=
  share T own iters work <$> seq 0 T.

(** The innermost statement executions of the three loop nests, in program
    order. *)

(** Iteration [q] of the loop under the pragma in
    [blockedMatrixMultiplication], for the block row [p]. *)
Definition block_work (NB NEIB p q : Z) : list action :=
  r ← seqZ 0 NB;
  i ← seqZ (p * NEIB) NEIB;
  j ← seqZ (q * NEIB) NEIB;
  k ← seqZ (r * NEIB) NEIB;
  [(i, j, k)].

(** Iteration [i] of the loop under the pragma in
    [standardMatrixMultiplication]. *)
Definition row_work (N i : Z) : list action :=
  j ← seqZ 0 N;
  k ← seqZ 0 N;
  [(i, j, k)].

(** What the program takes from its environment. *)
Record runtime := {
  (* the [n]-th reading of omp_get_wtime() *)
  wtime : nat → double;
  (* the schedule of the [n]-th parallel region *)
  sched : nat → schedule;
  (* the value the [n]-th call of initializeMatrix draws for cell (i, j) *)
  rng : nat → Z → Z → double;
  (* whether three N×N grids of doubles can be allocated *)
  enough_memory : Z → bool
}.

Definition omp_get_wtime (E : runtime) (w : world) : double * world :=
  (wtime E (ticks w), next_tick w).

(** [#pragma omp parallel for num_threads(nThreads)] over the iterations
    [iters]; the steps of iteration [q] are [work q], each performed by
    [stmt].  [num_threads] requires a positive value. *)
Definition parallel_for (E : runtime) (nThreads : Z) (iters : list Z)
    (work : Z → list action) (stmt : action → store → option store)
    (w : world) : option world :=
  if decide (nThreads ≤ 0) then None
  else
    let sc := sched E (regions w) in
    lift (for_ (interleave (pick sc)
                  (team (Z.to_nat nThreads) (owner sc) iters work)) stmt)
         (next_region w).

(** The steps of the parallel region that [blockedMatrixMultiplication]
    enters for the block row [p], when [r] regions were entered before, in
    the order in which the team performs them. *)
Definition region_steps (E : runtime) (nThreads NB NEIB : Z) (r : nat)
    (p : Z) : list action :=
  let sc := sched E r in
  interleave (pick sc)
    (team (Z.to_nat nThreads) (owner sc) (seqZ 0 NB) (block_work NB NEIB p)).

(** ** The three strategies *)

Definition blockedMatrixMultiplication (E : runtime) (a b c : string)
    (N NEIB nThreads : Z) (w : world) : option (Result * world) :=
  let w := log_call Blocked nThreads c w in
  NB ← cquot N NEIB;
  let '(now, w) := omp_get_wtime E w in
  w ← for_ (seqZ 0 NB) (λ p,
         parallel_for E nThreads (seqZ 0 NB) (block_work NB NEIB p)
           (mac a b c)) w;
  let '(t, w) := omp_get_wtime E w in
  Some ({| timestamp := sub t now; threads := nThreads |}, w).

Definition standardMatrixMultiplication (E : runtime) (a b c : string)
    (N nThreads : Z) (w : world) : option (Result * world) :=
  let w := log_call Standard nThreads c w in
  let '(now, w) := omp_get_wtime E w in
  w ← parallel_for E nThreads (seqZ 0 N) (row_work N) (mac a b c) w;
  let '(t, w) := omp_get_wtime E w in
  Some ({| timestamp := sub t now; threads := nThreads |}, w).

Definition sequentialMatrixMultiplication (E : runtime) (a b c : string)
    (N : Z) (w : world) : option (Result * world) :=
  let w := log_call Sequential 1 c w in
  let '(now, w) := omp_get_wtime E w in
  w ← for_ (seqZ 0 N) (λ i,
         for_ (seqZ 0 N) (λ j,
           for_ (seqZ 0 N) (λ k, lift (mac a b c (i, j, k))))) w;
  let '(t, w) := omp_get_wtime E w in
  Some ({| timestamp := sub t now; threads := 1 |}, w).

(** ** Helpers of [main] *)

Definition initializeMatrix (E : runtime) (matrix : string) (size : Z)
    (random : bool) (w : world) : option world :=
  let dis := rng E (fills w) in
  w ← for_ (seqZ 0 size) (λ i,
         for_ (seqZ 0 size) (λ j,
           lift (assign matrix i j
                   (if random then dis i j else of_int (i + j + 1))))) w;
  Some (next_fill w).

Definition printMatrix (matrix : string) (size maxDisplay : Z) (w : world)
    : option world :=
  M ← mem w !! matrix;
  let displaySize := Z.min size maxDisplay in
  w ← for_ (seqZ 0 displaySize) (λ i w,
         let w := put (Text "   ") w in
         w ← for_ (seqZ 0 displaySize) (λ j w,
                v ← mget M i j;
                Some (put (Text " ") (put_double v w))) w;
         let w := if decide (maxDisplay < size) then put (Text "...") w
                  else w in
         Some (put Endl w)) w;
  let w := if decide (maxDisplay < size)
           then put Endl (put (Text "   ...") w) else w in
  Some (put Endl w).

(** The two loops under the comment [Reset result matrix]. *)
Definition reset_result_matrix (c : string) (N : Z) (w : world)
    : option world :=
  for_ (seqZ 0 N) (λ row,
    for_ (seqZ 0 N) (λ col, lift (assign c row col zero))) w.

(** ** [main] *)

Definition maxThreads : Z := 16.

Definition tab : string := String (Ascii.ascii_of_nat 9) EmptyString.

Definition divisibility_error : string :=
  "Error: Matrix size must be divisible by block size for blocked method!".

(** [method == 1 && N % NEIB != 0]; the remainder is only computed when
    [method] is 1. *)
Definition not_divisible (method N NEIB : Z) : option bool :=
  if decide (method = 1) then r ← crem N NEIB; Some (negb (r =? 0))
  else Some false.

(** The construction of the three N×N vectors of vectors. *)
Definition vector_ctor (E : runtime) (N : Z) : option exn :=
  if decide (N < 0) then Some length_error
  else if enough_memory E N then None
  else Some bad_alloc.

(** The two derived metrics of a table entry, as the report loop computes
    them. *)
Definition speedup (sequentialTime : double) (result : Z * Result) : double :=
  div sequentialTime (timestamp result.2).

Definition efficiency (sequentialTime : double) (result : Z * Result)
    : double :=
  div (speedup sequentialTime result) (of_int result.1).

(** One line of the report table. *)
Definition report_row (sequentialTime : double) (result : Z * Result)
    (w : world) : world :=
  let currentTime := timestamp result.2 in
  let w := put (Num result.1) (put (Text "   ") w) in
  let w := put_double currentTime
             (setprecision 6 (put (Text (tab +:+ tab)) w)) in
  let w := put_double (speedup sequentialTime result)
             (setprecision 2 (put (Text (tab +:+ tab)) w)) in
  let w := put_double (efficiency sequentialTime result)
             (setprecision 2 (put (Text (tab +:+ tab)) w)) in
  put Endl w.

Definition report (sequentialTime : double) (results : list (Z * Result))
    (w : world) : world :=
  let w := put Endl (put (Text "   Results:") (put Endl w)) in
  let w := put Endl (put (Text ("   Threads" +:+ tab +:+ "Time (sec)" +:+ tab
                                 +:+ "Speedup" +:+ tab +:+ tab
                                 +:+ "Efficiency")) w) in
  let w := put Endl (put (Text ("   -------" +:+ tab +:+ "---------" +:+ tab
                                 +:+ "-------" +:+ tab +:+ tab
                                 +:+ "----------")) w) in
  foldl (λ w result, report_row sequentialTime result w) w results.

(** One turn of the loop [for (int i = 0; i < maxThreads; i++)]; the state
    is [sequentialTime], [results] and the world. *)
Definition sweep_step (E : runtime) (method N NEIB : Z) (i : Z)
    (st : double * list (Z * Result) * world)
    : option (double * list (Z * Result) * world) :=
  let '(sequentialTime, results, w) := st in
  w ← reset_result_matrix "c" N w;
  '(result, w) ←
    (if decide (method = 1)
     then blockedMatrixMultiplication E "a" "b" "c" N NEIB (i + 1) w
     else standardMatrixMultiplication E "a" "b" "c" N (i + 1) w);
  let sequentialTime :=
    if decide (i = 0) then timestamp result else sequentialTime in
  Some (sequentialTime, results ++ [(to_short (i + 1), result)], w).

(** The branch commented [Interactive mode: run full analysis]. *)
Definition full_analysis (E : runtime) (method N NEIB : Z) (w : world)
    : option (double * list (Z * Result) * world) :=
  if decide (method = 3) then
    w ← reset_result_matrix "c" N w;
    '(result, w) ← sequentialMatrixMultiplication E "a" "b" "c" N w;
    Some (timestamp result, [(1, result)], w)
  else
    for_ (seqZ 0 maxThreads) (sweep_step E method N NEIB) (zero, [], w).

(** The branch commented [Batch mode: run with specific thread count]. *)
Definition single_run (E : runtime) (method N NEIB specificThreads : Z)
    (w : world) : option world :=
  w ← reset_result_matrix "c" N w;
  '(result, w) ←
    (if decide (method = 3)
     then sequentialMatrixMultiplication E "a" "b" "c" N w
     else if decide (method = 1)
     then blockedMatrixMultiplication E "a" "b" "c" N NEIB specificThreads w
     else standardMatrixMultiplication E "a" "b" "c" N specificThreads w);
  let w := put (Text ",") (put (Num method) w) in
  let w := put (Text ",") (put (Num specificThreads) w) in
  Some (put Endl (put_double (timestamp result) (setprecision 8 w))).

(** How one turn of the [do ... while (!batchMode)] body ends. *)
Inductive flow :=
  | Return (status : Z)     (* return status; *)
  | Continue                (* continue; *)
  | Next                    (* the end of the body was reached *)
  | Throw (e : exn).        (* an exception left the body *)

(** The body of the [do ... while (!batchMode)] loop. *)
Definition experiment (E : runtime) (batchMode : bool)
    (N NEIB method specificThreads : Z) (w : world) : option (flow * world) :=
  match not_divisible method N NEIB with
  | None => None
  | Some true =>
    if batchMode
    then Some (Return 1, put Endl (put (Text divisibility_error) w))
    else Some (Continue,
               put Endl (put (Text ("   " +:+ divisibility_error)) w))
  | Some false =>
    match vector_ctor E N with
    | Some e => Some (Throw e, w)
    | None =>
        let w := set_mem (<["c" := zeros N]>
                           (<["b" := zeros N]>
                              (<["a" := zeros N]> (mem w)))) w in
        w ← initializeMatrix E "a" N true w;
        w ← initializeMatrix E "b" N true w;
        w ← (if batchMode then Some w
             else
               let w := put Endl (put (Text
                  "   Sample of matrix A (top-left corner):") (put Endl w)) in
               w ← printMatrix "a" N 5 w;
               let w := put Endl (put (Text
                  "   Sample of matrix B (top-left corner):") w) in
               printMatrix "b" N 5 w);
        if batchMode && bool_decide (0 < specificThreads) then
          w ← single_run E method N NEIB specificThreads w;
          Some (Return 0, w)
        else
          '(sequentialTime, results, w) ← full_analysis E method N NEIB w;
          let w := report sequentialTime results w in
          w ← (if batchMode then Some w
               else
                 let w := put Endl (put (Text
                    "   Sample of result matrix C (top-left corner):") w) in
                 w ← printMatrix "c" N 5 w;
                 Some (put Endl w));
          Some (Next, w)
    end
  end.

(** How far a run of the program has come. *)
Inductive outcome :=
  | Exit (status : Z) (w : world)   (* main returned [status] *)
  | Running (w : world)             (* main has not returned: it waits for
                                       input, or the observation ended *)
  | Undefined.                      (* undefined behaviour was reached *)

(** [do body while (!batchMode)], then the code after the [try] block;
    [fuel] bounds the number of turns that are observed. *)
Fixpoint do_while (fuel : nat) (batchMode : bool)
    (body : world → option (flow * world)) (w : world) : outcome :=
  match body w with
  | None => Undefined
  | Some (Return status, w) => Exit status w
  | Some (Throw e, w) => Exit 0 (put Endl (put (What e) w))
  | Some (_, w) =>
      if batchMode then Exit 0 w
      else
        match fuel with
        | O => Running w
        | S fuel' => do_while fuel' batchMode body w
        end
  end.

(** How one turn of a [while (true)] body ends; [V] holds the variables the
    loop assigns. *)
Inductive turn (V : Type) :=
  | Break (v : V) (w : world)      (* break; *)
  | Again (v : V) (w : world)      (* continue; or the end of the body *)
  | Await (w : world)              (* cin has nothing to extract yet *)
  | Crash.                         (* undefined behaviour *)
Arguments Break {V}.
Arguments Again {V}.
Arguments Await {V}.
Arguments Crash {V}.

Fixpoint while_true {V : Type} (fuel : nat) (body : V → world → turn V)
    (v : V) (w : world) : turn V :=
  match fuel with
  | O => Await w
  | S fuel' =>
      match body v w with
      | Again v w => while_true fuel' body v w
      | r => r
      end
  end.

(** The body of the [while (true)] loop of the interactive mode; the
    variables are [N], [NEIB] and [method]. *)
Definition prompt (v : Z * Z * Z) (w : world) : turn (Z * Z * Z) :=
  let w := put (Text "   Matrix size (N): ") w in
  match cin w with
  | None => Await w
  | Some (N, w) =>
  let w := put (Text "   Block size (NEIB): ") w in
  match cin w with
  | None => Await w
  | Some (NEIB, w) =>
  let w := put (Text
    "   Method (1 - blocked, 2 - standard, 3 - sequential): ") w in
  match cin w with
  | None => Await w
  | Some (method, w) =>
  match not_divisible method N NEIB with
  | None => Crash
  | Some true =>
      Again (N, NEIB, method)
        (put Endl (put (Text ("   " +:+ divisibility_error)) w))
  | Some false => Again (N, NEIB, method) w
  end end end end.

(** The command line: [argc == 5] with the four values [atoi] returns, or
    anything else. *)
Inductive cmdline :=
  | Batch (N NEIB method specificThreads : Z)
  | Interactive.

(** [main].  [input] is what [cin] will deliver and [fuel] bounds the number
    of loop turns that are observed. *)
Definition main (E : runtime) (fuel : nat) (args : cmdline)
    (input : list Z) : outcome :=
  let w := put Endl (setprecision 8 (initial input)) in
  match args with
  | Batch N NEIB method specificThreads =>
      do_while fuel true
        (experiment E true N NEIB (to_short method) specificThreads) w
  | Interactive =>
      match while_true fuel prompt (0, 0, 0) w with
      | Break (N, NEIB, method) w =>
          do_while fuel false (experiment E false N NEIB method 0) w
      | Again _ w | Await w => Running w
      | Crash => Undefined
      end
  end.

(** ** What the loop nests compute, cell by cell *)

(** The [k] of a step, if the step writes cell [(i0, j0)]. *)
Definition proj (i0 j0 : Z) (x : action) : list Z :=
  let '(i, j, k) := x in if decide (i = i0 ∧ j = j0) then [k] else [].

Definition in_range (N : Z) (x : action) : Prop :=
  let '(i, j, k) := x in 0 ≤ i < N ∧ 0 ≤ j < N ∧ 0 ≤ k < N.

(** The effect of one multiply-accumulate on the value of cell [(i, j)]. *)
Definition accumulate (A B : matrix) (i j : Z) (acc : double) (k : Z)
    : double :=
  add acc (mul (entry A i k) (entry B k j)).

(** The N×N matrix whose cell [(i, j)] is [f i j]. *)
Definition tabulate (N : Z) (f : Z → Z → double) : matrix :=
  (λ i, f i <$> seqZ 0 N) <$> seqZ 0 N.

(** What accumulating the products into [C0] leaves in each cell:
    [C0[i][j]], to which [A[i][k] * B[k][j]] is added for [k = 0], then
    [k = 1], ... up to [k = N - 1]. *)
Definition accumulated (N : Z) (A B C0 : matrix) : matrix :=
  tabulate N (λ i j, foldl (accumulate A B i j) (entry C0 i j) (seqZ 0 N)).

(** [sum_upto n f] is the sum of [f 0], ..., [f (n - 1)]: the empty sum is
    0, and each further term is added on the right. *)
Fixpoint sum_upto (n : nat) (f : Z → double) : double :=
  match n with
  | O => zero
  | S m => add (sum_upto m f) (f (Z.of_nat m))
  end.

(** The dense product of the specification:
    [C[i][j] = sum over k of A[i][k] * B[k][j]]. *)
Definition dense_product (N : Z) (A B : matrix) : matrix :=
  tabulate N (λ i j,
    sum_upto (Z.to_nat N) (λ k, mul (entry A i k) (entry B k j))).

(** The initial cell plus the sum of the products. *)
Definition initial_plus_sum (N : Z) (A B C0 : matrix) : matrix :=
  tabulate N (λ i j,
    add (entry C0 i j)
        (sum_upto (Z.to_nat N) (λ k, mul (entry A i k) (entry B k j)))).

(** The world after [r] more parallel regions and [t] more clock readings,
    with the store [m]. *)
Definition advance (r t : nat) (m : store) (w : world) : world :=
  {| mem := m; ticks := t + ticks w; regions := r + regions w;
     fills := fills w; precision := precision w; out := out w;
     stdin := stdin w; calls := calls w |}.

(** ** What the program prints *)

(** The three lines above the rows of the report table, after the empty
    line. *)
Definition report_header : list item :=
  [Endl; Text "   Results:"; Endl;
   Text ("   Threads" +:+ tab +:+ "Time (sec)" +:+ tab +:+ "Speedup"
         +:+ tab +:+ tab +:+ "Efficiency"); Endl;
   Text ("   -------" +:+ tab +:+ "---------" +:+ tab +:+ "-------"
         +:+ tab +:+ tab +:+ "----------"); Endl].

(** The row of one table entry. *)
Definition row_items (sequentialTime : double) (result : Z * Result)
    : list item :=
  [Text "   "; Num result.1;
   Text (tab +:+ tab); Dbl 6 (timestamp result.2);
   Text (tab +:+ tab); Dbl 2 (speedup sequentialTime result);
   Text (tab +:+ tab); Dbl 2 (efficiency sequentialTime result); Endl].

(** The line of the batch mode. *)
Definition csv_line (method threads : Z) (elapsed : double) : list item :=
  [Num method; Text ","; Num threads; Text ","; Dbl 8 elapsed; Endl].

(** The three prompts of one turn of the interactive loop. *)
Definition prompts : list item :=
  [Text "   Matrix size (N): "; Text "   Block size (NEIB): ";
   Text "   Method (1 - blocked, 2 - standard, 3 - sequential): "].

(** An item through which an infinity or a NaN reaches the output. *)
Definition shows_inf_or_nan (x : item) : bool :=
  match x with Dbl _ d => is_inf_or_nan d | _ => false end.

(** The strategy a value of [method] selects. *)
Definition selected (method : Z) : strategy :=
  if decide (method = 3) then Sequential
  else if decide (method = 1) then Blocked else Standard.

(** The matrix a call of [initializeMatrix] in random mode leaves. *)
Definition drawn (E : runtime) (n : nat) (N : Z) : matrix :=
  tabulate N (rng E n).

(** The first world of [main]: after [cout << fixed << setprecision(8) <<
    endl]. *)
Definition started (input : list Z) : world :=
  put Endl (setprecision 8 (initial input)).

(** The matrices of [main] are in place: [a] and [b] hold [A] and [B], and
    [c] is an N×N matrix. *)
Definition ready (N : Z) (A B : matrix) (w : world) : Prop :=
  mem w !! "a" = Some A ∧ mem w !! "b" = Some B ∧
  ∃ C, mem w !! "c" = Some C ∧ square N C.

(** [f] behaves as a multiplication strategy called on the matrices of
    [main] with [n] threads: it returns the elapsed time between its two
    clock readings, writes [c] only and records its call. *)
Definition multiplies (E : runtime) (N : Z) (A B : matrix)
    (f : world → option (Result * world)) (s : strategy) (n : Z) : Prop :=
  ∀ w C,
    mem w !! "a" = Some A → mem w !! "b" = Some B → mem w !! "c" = Some C →
    square N C →
    ∃ r C',
      f w = Some ({| timestamp := sub (wtime E (S (ticks w))) (wtime E (ticks w));
                     threads := n |},
                  advance r 2 (<["c" := C']> (mem w)) (log_call s n "c" w))
      ∧ square N C'.

(** The record of a call entered with a zeroed output matrix. *)
Definition clean_call (N : Z) (s : strategy) (n : Z) : call :=
  {| strategy_of := s; threads_of := n; output_before := zeros N |}.

(** Everything a strategy call leaves alone. *)
Definition same_streams (w w' : world) : Prop :=
  out w' = out w ∧ precision w' = precision w ∧ stdin w' = stdin w ∧
  fills w' = fills w.

(** ** Sample environments and inputs *)

(** A clock that advances by one second per reading, a round-robin
    scheduler, and matrices filled with the pattern [i + j + 1]. *)
Definition sample_runtime : runtime :=
  {| wtime := λ n, of_int (Z.of_nat n);
     sched := λ r, {| owner := λ q, Z.to_nat q; pick := λ n, (n + r)%nat |};
     rng := λ _ i j, of_int (i + j + 1);
     enough_memory := λ _, true |}.

(** The same environment with a clock too coarse to see a run: every
    reading returns the same instant. *)
Definition coarse_runtime : runtime :=
  {| wtime := λ _, of_int 5;
     sched := sched sample_runtime;
     rng := rng sample_runtime;
     enough_memory := enough_memory sample_runtime |}.

(** The matrix with [A[i][j] = i + j + 1]. *)
Definition pattern (N : Z) : matrix := tabulate N (λ i j, of_int (i + j + 1)).

(** A world whose store holds [A], [B] and [C] under the names [a], [b]
    and [c]. *)
Definition world_of (A B C : matrix) : world :=
  set_mem (<["c" := C]> (<["b" := B]> (<["a" := A]> ∅))) (initial []).

(** 2^53, the first double whose successor is 2 away. *)
Definition two53 : double := of_int 9007199254740992.

(** The 2×2 matrix of ones, and the 2×2 matrix whose cells all hold 2^53. *)
Definition ones2 : matrix := [[one; one]; [one; one]].
Definition big2 : matrix := [[two53; two53]; [two53; two53]].

(** ** [verifyResult] *)

(** [const double epsilon = 1e-9]: the double nearest to 10^-9. *)
Definition epsilon : double := S754_finite false 4835703278458517 (-82).

(** A [for] loop whose body may [return]: the body yields [Some r] when it
    returns [r] and [None] when it reaches its end; the outer [option] is
    for undefined behaviour. *)
Fixpoint for_return {A R : Type} (l : list A) (body : A → option (option R))
    : option (option R) :=
  match l with
  | [] => Some None
  | x :: l' =>
      match body x with
      | None => None
      | Some (Some r) => Some (Some r)
      | Some None => for_return l' body
      end
  end.

(** [abs(c1[i][j] - c2[i][j]) > epsilon]. *)
Definition differ (x y : double) : bool := SFltb epsilon (SFabs (sub x y)).

(** [verifyResult]: the two matrices are only read. *)
Definition verifyResult (c1 c2 : matrix) (size : Z) : option bool :=
  r ← for_return (seqZ 0 size) (λ i,
         for_return (seqZ 0 size) (λ j,
           x ← mget c1 i j;
           y ← mget c2 i j;
           if differ x y then Some (Some false) else Some None));
  Some (default true r).

(** The N×N matrix whose cells all hold [d]. *)
Definition constant_matrix (N : Z) (d : double) : matrix :=
  tabulate N (λ _ _, d).

(** ** Output of the helpers *)

(** The world after [l] was written to [cout]. *)
Definition emit (l : list item) (w : world) : world :=
  {| mem := mem w; ticks := ticks w; regions := regions w; fills := fills w;
     precision := precision w; out := out w ++ l; stdin := stdin w;
     calls := calls w |}.

(** What [printMatrix] writes for the matrix [M], at the precision
    [digits]. *)
Definition sample_rows (M : matrix) (size maxDisplay : Z) (digits : nat)
    : list item :=
  let displaySize := Z.min size maxDisplay in
  (i ← seqZ 0 displaySize;
   [Text "   "]
   ++ (j ← seqZ 0 displaySize; [Dbl digits (entry M i j); Text " "])
   ++ (if decide (maxDisplay < size) then [Text "..."] else [])
   ++ [Endl])
  ++ (if decide (maxDisplay < size) then [Text "   ..."; Endl] else [])
  ++ [Endl].

Definition is_number (x : item) : bool :=
  match x with Dbl _ _ => true | _ => false end.

(** How many doubles a piece of output shows. *)
Definition count_numbers (l : list item) : nat :=
  length (filter (λ x, is_number x) l).

(** What the blocked loop nest leaves when its blocks cover the first [M]
    rows and columns only: in that corner, [C0[i][j]] to which the products
    for [k = 0 .. M-1] are added; elsewhere, [C0[i][j]]. *)
Definition accumulated_corner (N M : Z) (A B C0 : matrix) : matrix :=
  tabulate N (λ i j,
    if decide (i < M ∧ j < M)
    then foldl (accumulate A B i j) (entry C0 i j) (seqZ 0 M)
    else entry C0 i j).

(** The matrix [initializeMatrix] leaves: random draws, or the pattern
    [i + j + 1]. *)
Definition initialized (E : runtime) (n : nat) (N : Z) (random : bool)
    : matrix :=
  tabulate N (λ i j, if random then rng E n i j else of_int (i + j + 1)).

(** * Matrices *)

Lemma mget_square N (m : matrix) i j :
  square N m → 0 ≤ i < N → 0 ≤ j < N → mget m i j = Some (entry m i j).
Proof.
  intros [Hlen Hrows] Hi Hj. unfold entry, mget.
  rewrite decide_True by lia.
  destruct (lookup_lt_is_Some_2 m (Z.to_nat i)) as [row Hrow]; [lia|].
  rewrite Hrow. simpl.
  pose proof (Forall_lookup_1 _ _ _ _ Hrows Hrow) as Hr. simpl in Hr.
  destruct (lookup_lt_is_Some_2 row (Z.to_nat j)) as [v Hv]; [lia|].
  by rewrite Hv.
Qed.

Lemma mset_square N (m : matrix) i j v :
  square N m → 0 ≤ i < N → 0 ≤ j < N →
  ∃ m', mset m i j v = Some m' ∧ square N m' ∧
        ∀ i' j', entry m' i' j' =
                 if decide (i' = i ∧ j' = j) then v else entry m i' j'.
Proof.
  intros [Hlen Hrows] Hi Hj. unfold mset.
  rewrite decide_True by lia.
  destruct (lookup_lt_is_Some_2 m (Z.to_nat i)) as [row Hrow]; [lia|].
  rewrite Hrow. simpl.
  pose proof (Forall_lookup_1 _ _ _ _ Hrows Hrow) as Hr. simpl in Hr.
  destruct (lookup_lt_is_Some_2 row (Z.to_nat j)) as [v0 Hv0]; [lia|].
  rewrite Hv0. simpl. eexists. split; [done|]. split.
  - split; [by rewrite length_insert|].
    apply Forall_insert; [done|]. by rewrite length_insert.
  - intros i' j'. unfold entry, mget.
    destruct (decide (0 ≤ i' ∧ 0 ≤ j')) as [Hpos|Hneg].
    + destruct (decide (i' = i)) as [->|Hne].
      * rewrite list_lookup_insert_eq by lia. simpl. rewrite Hrow. simpl.
        destruct (decide (j' = j)) as [->|Hnj].
        -- rewrite list_lookup_insert_eq by lia.
           by rewrite decide_True.
        -- rewrite list_lookup_insert_ne by lia.
           rewrite decide_False by tauto. done.
      * rewrite list_lookup_insert_ne by lia.
        rewrite decide_False by tauto. done.
    + rewrite decide_False by lia. done.
Qed.

Lemma matrix_ext N (C D : matrix) :
  square N C → square N D →
  (∀ i j, 0 ≤ i < N → 0 ≤ j < N → entry C i j = entry D i j) → C = D.
Proof.
  intros HC HD Heq. apply list_eq_same_length with (Z.to_nat N);
    [apply HD | apply HC |].
  intros r x y Hr Hx Hy.
  pose proof (Forall_lookup_1 _ _ _ _ (proj2 HC) Hx) as Lx.
  pose proof (Forall_lookup_1 _ _ _ _ (proj2 HD) Hy) as Ly.
  simpl in Lx, Ly.
  apply list_eq_same_length with (Z.to_nat N); [done..|].
  intros s u v Hs Hu Hv.
  specialize (Heq (Z.of_nat r) (Z.of_nat s) ltac:(lia) ltac:(lia)).
  unfold entry, mget in Heq. rewrite !decide_True in Heq by lia.
  rewrite !Nat2Z.id in Heq. rewrite Hx, Hy in Heq. simpl in Heq.
  rewrite Hu, Hv in Heq. done.
Qed.

Lemma square_zeros N : square N (zeros N).
Proof.
  split; [apply length_replicate|].
  apply Forall_replicate. apply length_replicate.
Qed.

Lemma entry_zeros N i j : entry (zeros N) i j = zero.
Proof.
  unfold entry, mget, zeros. case_decide; [|done].
  destruct (replicate _ _ !! Z.to_nat i) as [row|] eqn:Hrow; [|done].
  apply lookup_replicate in Hrow as [-> _]. simpl.
  destruct (replicate _ _ !! Z.to_nat j) as [v|] eqn:Hv; [|done].
  by apply lookup_replicate in Hv as [-> _].
Qed.

Lemma squareb_spec N m : squareb N m = true ↔ square N m.
Proof.
  unfold squareb, square. rewrite andb_true_iff, bool_decide_eq_true.
  rewrite forallb_forall, Forall_forall.
  setoid_rewrite bool_decide_eq_true. setoid_rewrite list_elem_of_In. done.
Qed.

(** * Loops *)

Lemma for_app {A S} (l1 l2 : list A) (body : A → S → option S) s :
  for_ (l1 ++ l2) body s = for_ l1 body s ≫= for_ l2 body.
Proof.
  revert s. induction l1 as [|x l1 IH]; intros s; simpl; [done|].
  destruct (body x s); simpl; [apply IH|done].
Qed.

Lemma for_bind {A B S} (l : list A) (g : A → list B) (body : B → S → option S) s :
  for_ l (λ x, for_ (g x) body) s = for_ (l ≫= g) body s.
Proof.
  revert s. induction l as [|x l IH]; intros s; simpl; [done|].
  rewrite for_app. destruct (for_ (g x) body s); simpl; [apply IH|done].
Qed.

Lemma for_ext {A S} (l : list A) (f g : A → S → option S) s :
  (∀ x s, x ∈ l → f x s = g x s) → for_ l f s = for_ l g s.
Proof.
  revert s. induction l as [|x l IH]; intros s H; simpl; [done|].
  rewrite H by left. destruct (g x s); simpl; [|done].
  apply IH. intros. apply H. by right.
Qed.

Lemma set_mem_id w : set_mem (mem w) w = w.
Proof. by destruct w. Qed.

Lemma for_lift {A} (l : list A) (f : A → store → option store) w :
  for_ l (λ x, lift (f x)) w = lift (for_ l f) w.
Proof.
  unfold lift. revert w. induction l as [|x l IH]; intros w; simpl.
  - by rewrite set_mem_id.
  - destruct (f x (mem w)) as [m|]; simpl; [|done].
    rewrite IH. simpl. destruct (for_ l f m); simpl; done.
Qed.

Lemma for_singleton {A S} (x : A) (body : A → S → option S) s :
  for_ [x] body s = body x s.
Proof. simpl. by destruct (body x s). Qed.

Lemma for_nest2 {S} (l1 l2 : list Z) (F : Z * Z → S → option S) s :
  for_ l1 (λ i, for_ l2 (λ j, F (i, j))) s
  = for_ (i ← l1; j ← l2; [(i, j)]) F s.
Proof.
  rewrite <- for_bind. apply for_ext. intros i s' _.
  rewrite <- for_bind. apply for_ext. intros j s'' _.
  by rewrite for_singleton.
Qed.

Lemma for_nest3 {S} (l1 l2 l3 : list Z) (F : Z * Z * Z → S → option S) s :
  for_ l1 (λ i, for_ l2 (λ j, for_ l3 (λ k, F (i, j, k)))) s
  = for_ (i ← l1; j ← l2; k ← l3; [(i, j, k)]) F s.
Proof.
  rewrite <- for_bind. apply for_ext. intros i s' _.
  rewrite <- for_bind. apply for_ext. intros j s'' _.
  rewrite <- for_bind. apply for_ext. intros k s''' _.
  by rewrite for_singleton.
Qed.

(** * The multiply-accumulate statement *)

Section Mac.
Context (a b c : string) (N : Z) (A B : matrix).
Hypothesis (Hca : c ≠ a) (Hcb : c ≠ b).
Hypothesis (HA : square N A) (HB : square N B).

Lemma mac_step (m : store) C i j k :
  m !! a = Some A → m !! b = Some B → m !! c = Some C → square N C →
  in_range N (i, j, k) →
  ∃ C', mac a b c (i, j, k) m = Some (<[c := C']> m) ∧ square N C' ∧
        ∀ i' j', entry C' i' j' =
          foldl (accumulate A B i' j') (entry C i' j') (proj i' j' (i, j, k)).
Proof.
  intros Ha Hb Hc HC (Hi & Hj & Hk). unfold mac.
  rewrite Ha, Hb, Hc. simpl.
  rewrite (mget_square N A), (mget_square N B), (mget_square N C) by done.
  simpl.
  destruct (mset_square N C i j
              (add (entry C i j) (mul (entry A i k) (entry B k j))) HC Hi Hj)
    as (C' & -> & HC' & Hent).
  simpl. exists C'. split; [done|]. split; [done|].
  intros i' j'. rewrite Hent. unfold proj.
  destruct (decide (i' = i ∧ j' = j)) as [[-> ->]|Hne].
  - rewrite decide_True by done. done.
  - rewrite decide_False by (intros [-> ->]; tauto). done.
Qed.

Lemma for_mac (l : list action) (m : store) C :
  m !! a = Some A → m !! b = Some B → m !! c = Some C → square N C →
  Forall (in_range N) l →
  ∃ C', for_ l (mac a b c) m = Some (<[c := C']> m) ∧ square N C' ∧
        ∀ i j, entry C' i j =
          foldl (accumulate A B i j) (entry C i j) (l ≫= proj i j).
Proof.
  revert m C. induction l as [|[[i j] k] l IH]; intros m C Ha Hb Hc HC Hl.
  - exists C. simpl. split; [by rewrite insert_id|]. done.
  - apply Forall_cons in Hl as [Hx Hl].
    destruct (mac_step m C i j k Ha Hb Hc HC Hx) as (C1 & Hmac & HC1 & Hent1).
    destruct (IH (<[c := C1]> m) C1) as (C' & Hfor & HC' & Hent); try done.
    { by rewrite lookup_insert_ne. }
    { by rewrite lookup_insert_ne. }
    { by rewrite lookup_insert_eq. }
    exists C'. split; [|split; [done|]].
    + cbn [for_]. rewrite Hmac. simpl. rewrite Hfor.
      by rewrite insert_insert_eq.
    + intros i' j'. rewrite Hent, Hent1, bind_cons, foldl_app. done.
Qed.

End Mac.

(** The inputs are never written: the store changes at [c] only. *)
Lemma mac_frame a b c x (m m' : store) r :
  mac a b c x m = Some m' → r ≠ c → m' !! r = m !! r.
Proof.
  destruct x as [[i j] k]. unfold mac. intros H Hr.
  repeat (match type of H with
          | (match ?o with _ => _ end) = _ => destruct o; simpl in H; [|done]
          | (?o ≫= _) = _ => destruct o; simpl in H; [|done]
          end).
  injection H as <-. by rewrite lookup_insert_ne.
Qed.

Lemma for_frame {A} (stmt : A → store → option store) c :
  (∀ x m m' r, stmt x m = Some m' → r ≠ c → m' !! r = m !! r) →
  ∀ l m m' r, for_ l stmt m = Some m' → r ≠ c → m' !! r = m !! r.
Proof.
  intros Hstmt l. induction l as [|x l IH]; intros m m' r H Hr; simpl in H.
  - by injection H as <-.
  - destruct (stmt x m) as [m1|] eqn:H1; simpl in H; [|done].
    rewrite (IH _ _ _ H Hr). by apply (Hstmt x).
Qed.

(** * Assignments *)

Lemma for_assign c N (f : Z → Z → double) (l : list (Z * Z)) (m : store) C :
  m !! c = Some C → square N C →
  Forall (λ x, 0 ≤ x.1 < N ∧ 0 ≤ x.2 < N) l →
  ∃ C', for_ l (λ x, assign c x.1 x.2 (f x.1 x.2)) m = Some (<[c := C']> m) ∧
        square N C' ∧
        ∀ i j, entry C' i j = if decide ((i, j) ∈ l) then f i j else entry C i j.
Proof.
  revert m C. induction l as [|[i j] l IH]; intros m C Hc HC Hl.
  - exists C. split; [simpl; by rewrite insert_id|]. split; [done|].
    intros i j. case_decide as Hin; [|done].
    by apply not_elem_of_nil in Hin.
  - apply Forall_cons in Hl as [[Hi Hj] Hl]. simpl in Hi, Hj.
    destruct (mset_square N C i j (f i j) HC Hi Hj) as (C1 & Hset & HC1 & Hent1).
    destruct (IH (<[c := C1]> m) C1) as (C' & Hfor & HC' & Hent); try done.
    { by rewrite lookup_insert_eq. }
    exists C'. split; [|split; [done|]].
    + cbn [for_ fst snd].
      replace (assign c i j (f i j) m) with (Some (<[c := C1]> m))
        by (unfold assign; rewrite Hc; simpl; by rewrite Hset).
      simpl. rewrite Hfor. by rewrite insert_insert_eq.
    + intros i' j'. rewrite Hent, Hent1.
      destruct (decide ((i', j') ∈ l)) as [Hin|Hnin].
      * destruct (decide ((i', j') ∈ (i, j) :: l)) as [|Hn]; [done|].
        destruct Hn. by right.
      * destruct (decide (i' = i ∧ j' = j)) as [[-> ->]|Hne].
        -- destruct (decide ((i, j) ∈ (i, j) :: l)) as [|Hn]; [done|].
           destruct Hn. by left.
        -- destruct (decide ((i', j') ∈ (i, j) :: l)) as [Hin|]; [|done].
           apply elem_of_cons in Hin as [Heq|?]; [|done].
           injection Heq as -> ->. tauto.
Qed.

Lemma cells_in_range N :
  Forall (λ x : Z * Z, 0 ≤ x.1 < N ∧ 0 ≤ x.2 < N)
    (i ← seqZ 0 N; j ← seqZ 0 N; [(i, j)]).
Proof.
  apply Forall_bind, Forall_seqZ. intros i Hi.
  apply Forall_bind, Forall_seqZ. intros j Hj.
  apply Forall_singleton. simpl. lia.
Qed.

Lemma cells_complete N i j :
  0 ≤ i < N → 0 ≤ j < N → (i, j) ∈ (i ← seqZ 0 N; j ← seqZ 0 N; [(i, j)]).
Proof.
  intros Hi Hj. apply list_elem_of_bind. exists i. split; [|apply elem_of_seqZ; lia].
  apply list_elem_of_bind. exists j. split; [|apply elem_of_seqZ; lia].
  apply list_elem_of_singleton. done.
Qed.

(** Filling every cell of an N×N matrix. *)
Lemma fill_all c N (f : Z → Z → double) (w : world) C :
  mem w !! c = Some C → square N C →
  ∃ C', for_ (seqZ 0 N) (λ i,
          for_ (seqZ 0 N) (λ j, lift (assign c i j (f i j)))) w
        = Some (set_mem (<[c := C']> (mem w)) w) ∧
        square N C' ∧
        ∀ i j, 0 ≤ i < N → 0 ≤ j < N → entry C' i j = f i j.
Proof.
  intros Hc HC.
  rewrite (for_nest2 _ _ (λ x, lift (assign c x.1 x.2 (f x.1 x.2)))).
  rewrite for_lift. unfold lift.
  destruct (for_assign c N f _ (mem w) C Hc HC (cells_in_range N))
    as (C' & -> & HC' & Hent).
  exists C'. split; [done|]. split; [done|].
  intros i j Hi Hj. rewrite Hent.
  case_decide as Hn; [done|]. destruct Hn. by apply cells_complete.
Qed.

Lemma reset_result_matrix_spec c N (w : world) C :
  mem w !! c = Some C → square N C →
  reset_result_matrix c N w = Some (set_mem (<[c := zeros N]> (mem w)) w).
Proof.
  intros Hc HC. unfold reset_result_matrix.
  destruct (fill_all c N (λ _ _, zero) w C Hc HC) as (C' & -> & HC' & Hent).
  replace C' with (zeros N); [done|].
  apply (matrix_ext N); [apply square_zeros|done|].
  intros i j Hi Hj. by rewrite entry_zeros, Hent.
Qed.

(** * List comprehensions *)

Lemma bind_assoc {A B C} (l : list A) (g : A → list B) (f : B → list C) :
  (l ≫= g) ≫= f = l ≫= (λ x, g x ≫= f).
Proof.
  induction l as [|x l IH]; [done|].
  by rewrite !bind_cons, bind_app, IH.
Qed.

Lemma bind_all_nil {A B} (l : list A) (g : A → list B) :
  (∀ x, x ∈ l → g x = []) → l ≫= g = [].
Proof.
  induction l as [|x l IH]; intros H; [done|].
  rewrite bind_cons, H, IH; [done| |left].
  intros. apply H. by right.
Qed.

Lemma bind_pick {A B} (l : list A) (x0 : A) (g : A → list B) :
  NoDup l → x0 ∈ l → (∀ x, x ∈ l → x ≠ x0 → g x = []) → l ≫= g = g x0.
Proof.
  induction l as [|x l IH]; intros Hnd Hin Hnil.
  - by apply not_elem_of_nil in Hin.
  - apply NoDup_cons in Hnd as [Hx Hnd]. rewrite bind_cons.
    apply elem_of_cons in Hin as [->|Hin].
    + rewrite bind_all_nil; [by rewrite app_nil_r|].
      intros y Hy. apply Hnil; [by right|]. by intros ->.
    + rewrite Hnil, IH; [done..| |left|]; [|by intros ->].
      intros y Hy. apply Hnil. by right.
Qed.

Lemma bind_ret {A} (l : list A) : l ≫= (λ x, [x]) = l.
Proof. induction l as [|x l IH]; [done|]. by rewrite bind_cons, IH. Qed.

Lemma bind_ext_in {A B} (l : list A) (f g : A → list B) :
  (∀ x, x ∈ l → f x = g x) → l ≫= f = l ≫= g.
Proof.
  induction l as [|x l IH]; intros H; [done|].
  rewrite !bind_cons, H, IH; [done| |left]. intros. apply H. by right.
Qed.

(** The [k]s of the steps of a loop nest over [I], [J] and [K] that write
    cell [(i0, j0)]. *)
Lemma nest_proj (I J K : list Z) i0 j0 :
  NoDup I → NoDup J →
  (i ← I; j ← J; k ← K; [(i, j, k)]) ≫= proj i0 j0
  = if decide (i0 ∈ I ∧ j0 ∈ J) then K else [].
Proof.
  intros HI HJ. rewrite bind_assoc.
  assert (Hcell : ∀ i j, (k ← K; [(i, j, k)]) ≫= proj i0 j0
                         = if decide (i = i0 ∧ j = j0) then K else []).
  { intros i j. rewrite bind_assoc. case_decide as Hd.
    - destruct Hd as [-> ->]. rewrite <- (bind_ret K) at 2.
      apply bind_ext_in. intros k _. rewrite bind_singleton. simpl.
      by rewrite decide_True.
    - apply bind_all_nil. intros k _. rewrite bind_singleton. simpl.
      by rewrite decide_False. }
  assert (Hrow : ∀ i, i ≠ i0 →
            (j ← J; k ← K; [(i, j, k)]) ≫= proj i0 j0 = []).
  { intros i Hi. rewrite bind_assoc. apply bind_all_nil. intros j _.
    rewrite Hcell. rewrite decide_False; [done|]. tauto. }
  case_decide as Hd.
  - destruct Hd as [Hi Hj].
    rewrite (bind_pick I i0); [|done..|by intros; apply Hrow].
    rewrite bind_assoc.
    rewrite (bind_pick J j0); [|done..|].
    + rewrite Hcell. by rewrite decide_True.
    + intros j _ Hne. rewrite Hcell. rewrite decide_False; [done|]. tauto.
  - apply bind_all_nil. intros i Hi.
    destruct (decide (i = i0)) as [->|Hne]; [|by apply Hrow].
    rewrite bind_assoc. apply bind_all_nil. intros j Hj.
    rewrite Hcell. rewrite decide_False; [done|]. intros [_ ->]. tauto.
Qed.

(** The blocks [0 .. NB-1] of side [NEIB] tile [0 .. NB*NEIB-1]. *)
Lemma blocks_tile (NB : nat) NEIB :
  0 ≤ NEIB →
  (r ← seqZ 0 (Z.of_nat NB); seqZ (r * NEIB) NEIB)
  = seqZ 0 (Z.of_nat NB * NEIB).
Proof.
  intros HNEIB. induction NB as [|n IH]; [done|].
  rewrite seqZ_S, bind_app, IH, bind_singleton.
  replace (Z.of_nat (S n) * NEIB) with (Z.of_nat n * NEIB + NEIB) by lia.
  rewrite seqZ_app by lia. done.
Qed.

(** * Interleavings *)

Section Interleave.
Context {A : Type}.
Implicit Types (ts : list (list A)) (t : nat).

Lemma elem_of_live ts t :
  t ∈ live ts ↔ ∃ x rest, ts !! t = Some (x :: rest).
Proof.
  unfold live. rewrite list_elem_of_filter, elem_of_seq. unfold has_work.
  split.
  - intros [H _]. destruct (ts !! t) as [[|x rest]|]; [done| |done]. eauto.
  - intros (x & rest & H). rewrite H. split; [done|].
    apply lookup_lt_Some in H. lia.
Qed.

Lemma live_nil ts t l : live ts = [] → ts !! t = Some l → l = [].
Proof.
  intros Hl Ht. destruct l as [|x rest]; [done|].
  assert (t ∈ live ts) as Hin by (apply elem_of_live; eauto).
  rewrite Hl in Hin. by apply not_elem_of_nil in Hin.
Qed.

Lemma length_concat_insert ts t x rest :
  ts !! t = Some (x :: rest) →
  length (concat ts) = S (length (concat (<[t := rest]> ts))).
Proof.
  revert t. induction ts as [|l ts IH]; intros [|t] H; simplify_eq/=.
  - done.
  - rewrite !length_app, (IH t H). lia.
Qed.

Lemma lookup_length_concat ts t l :
  ts !! t = Some l → (length l ≤ length (concat ts))%nat.
Proof.
  revert t. induction ts as [|l' ts IH]; intros [|t] H; simplify_eq/=.
  - rewrite length_app. lia.
  - rewrite length_app. specialize (IH t H). lia.
Qed.

(** The choice made at a step: none when every thread has finished,
    otherwise a thread that has a next step. *)
Lemma choice_spec ts (n : nat) :
  match live ts !! (n `mod` length (live ts))%nat with
  | None => live ts = []
  | Some t => ∃ x rest, ts !! t = Some (x :: rest)
  end.
Proof.
  destruct (live ts !! _) as [t|] eqn:Ht.
  - apply elem_of_live. by eapply list_elem_of_lookup_2.
  - apply lookup_ge_None in Ht. destruct (live ts) as [|t0 l0]; [done|].
    pose proof (Nat.mod_upper_bound n (length (t0 :: l0))) as Hb.
    simpl in *. lia.
Qed.

(** What a projection [f] sees of an interleaving, when only thread [t0]
    has steps that [f] keeps: the steps of [t0], in its program order. *)
Lemma interleave_from_bind {B} (f : A → list B) t0 choose fuel :
  ∀ n ts,
  (length (concat ts) ≤ fuel)%nat →
  (∀ t l, t ≠ t0 → ts !! t = Some l → l ≫= f = []) →
  interleave_from fuel n choose ts ≫= f = default [] (ts !! t0) ≫= f.
Proof.
  induction fuel as [|fuel IH]; intros n ts Hfuel Hother.
  - simpl. destruct (ts !! t0) as [l|] eqn:Ht0; [|done]. simpl.
    apply lookup_length_concat in Ht0.
    destruct l; [done|]. simpl in Ht0. lia.
  - simpl. pose proof (choice_spec ts (choose n)) as Hc.
    destruct (live ts !! _) as [t|].
    + destruct Hc as (x & rest & Ht). rewrite Ht.
      rewrite bind_cons.
      rewrite IH; cycle 1.
      { apply length_concat_insert in Ht. lia. }
      { intros t' l' Hne Hl'.
        destruct (decide (t' = t)) as [->|Hne'].
        - rewrite list_lookup_insert_eq in Hl' by (by eapply lookup_lt_Some).
          simplify_eq. specialize (Hother _ _ Hne Ht).
          rewrite bind_cons in Hother. by apply app_eq_nil in Hother as [_ ?].
        - rewrite list_lookup_insert_ne in Hl' by done. by eapply Hother. }
      destruct (decide (t = t0)) as [->|Hne].
      * rewrite Ht. rewrite list_lookup_insert_eq by (by eapply lookup_lt_Some).
        done.
      * rewrite list_lookup_insert_ne by done.
        specialize (Hother _ _ Hne Ht). rewrite bind_cons in Hother.
        apply app_eq_nil in Hother as [-> _]. done.
    + destruct (ts !! t0) as [l|] eqn:Ht0; [|done]. simpl.
      by rewrite (live_nil _ _ _ Hc Ht0).
Qed.

Lemma interleave_from_Forall (P : A → Prop) choose fuel :
  ∀ n ts, (∀ t l, ts !! t = Some l → Forall P l) →
          Forall P (interleave_from fuel n choose ts).
Proof.
  induction fuel as [|fuel IH]; intros n ts H; simpl; [done|].
  destruct (live ts !! _) as [t|]; [|done].
  destruct (ts !! t) as [[|x rest]|] eqn:Ht; [done| |done].
  pose proof (H _ _ Ht) as Hx. apply Forall_cons in Hx as [Hx Hrest].
  apply Forall_cons. split; [done|]. apply IH.
  intros t' l' Hl'. destruct (decide (t' = t)) as [->|Hne].
  - rewrite list_lookup_insert_eq in Hl' by (by eapply lookup_lt_Some).
    by simplify_eq.
  - rewrite list_lookup_insert_ne in Hl' by done. by eapply H.
Qed.

Lemma concat_insert_perm ts t x rest :
  ts !! t = Some (x :: rest) →
  concat ts ≡ₚ x :: concat (<[t := rest]> ts).
Proof.
  revert t. induction ts as [|l ts IH]; intros [|t] H; simplify_eq/=.
  - done.
  - rewrite (IH t H). by rewrite Permutation_middle.
Qed.

(** Every step of every thread is performed, once. *)
Lemma interleave_from_perm choose fuel :
  ∀ n ts, (length (concat ts) ≤ fuel)%nat →
          interleave_from fuel n choose ts ≡ₚ concat ts.
Proof.
  induction fuel as [|fuel IH]; intros n ts Hfuel.
  - simpl. destruct (concat ts); [done|simpl in Hfuel; lia].
  - simpl. pose proof (choice_spec ts (choose n)) as Hc.
    destruct (live ts !! _) as [t|].
    + destruct Hc as (x & rest & Ht). rewrite Ht.
      rewrite (concat_insert_perm _ _ _ _ Ht). constructor.
      apply IH. apply length_concat_insert in Ht. lia.
    + assert (Hall : ∀ l, l ∈ ts → l = []).
      { intros l [t Hl]%list_elem_of_lookup_1. by eapply live_nil. }
      clear -Hall. induction ts as [|l ts IH]; [done|]. simpl.
      rewrite (Hall l) by left. simpl. apply IH. intros. apply Hall. by right.
Qed.

End Interleave.

(** * Teams *)

Section Team.
Context {A : Type} (T : nat) (own : Z → nat) (iters : list Z)
        (work : Z → list A).

Lemma team_lookup t l :
  team T own iters work !! t = Some l →
  l = share T own iters work t ∧ (t < T)%nat.
Proof.
  unfold team. rewrite list_lookup_fmap.
  destruct (seq 0 T !! t) as [t'|] eqn:Ht; [|done]. simpl.
  apply lookup_seq in Ht as [-> ?]. intros [= <-]. done.
Qed.

Lemma team_lookup_lt t :
  (t < T)%nat → team T own iters work !! t = Some (share T own iters work t).
Proof.
  intros Ht. unfold team. rewrite list_lookup_fmap, lookup_seq_lt by done. done.
Qed.

(** A cell written by iteration [q0] alone receives the steps of [q0], in
    the order of its body, whatever the schedule. *)
Lemma region_bind_pick {B} (f : A → list B) choose q0 :
  (0 < T)%nat → NoDup iters → q0 ∈ iters →
  (∀ q, q ∈ iters → q ≠ q0 → work q ≫= f = []) →
  interleave choose (team T own iters work) ≫= f = work q0 ≫= f.
Proof.
  intros HT Hnd Hq0 Hnil. unfold interleave.
  rewrite (interleave_from_bind f (own q0 `mod` T)%nat); [|done|].
  - rewrite team_lookup_lt by (by apply Nat.mod_upper_bound; lia).
    simpl. unfold share. rewrite bind_assoc.
    apply (bind_pick _ q0).
    + by apply NoDup_filter.
    + by apply list_elem_of_filter.
    + intros q [_ Hq]%list_elem_of_filter Hne. by apply Hnil.
  - intros t l Hne [-> _]%team_lookup. unfold share. rewrite bind_assoc.
    apply bind_all_nil. intros q [Hown Hq]%list_elem_of_filter.
    apply Hnil; [done|]. intros ->. done.
Qed.

Lemma region_Forall (P : A → Prop) choose :
  (∀ q, q ∈ iters → Forall P (work q)) →
  Forall P (interleave choose (team T own iters work)).
Proof.
  intros H. apply interleave_from_Forall.
  intros t l [-> _]%team_lookup. unfold share.
  apply Forall_bind, Forall_forall. intros q [_ Hq]%list_elem_of_filter.
  by apply H.
Qed.

End Team.

(** * Tabulated matrices *)

Lemma square_tabulate N f : square N (tabulate N f).
Proof.
  unfold tabulate. split.
  - by rewrite length_fmap, length_seqZ.
  - apply Forall_fmap, Forall_forall. intros i _. simpl.
    by rewrite length_fmap, length_seqZ.
Qed.

Lemma entry_tabulate N f i j :
  0 ≤ i < N → 0 ≤ j < N → entry (tabulate N f) i j = f i j.
Proof.
  intros Hi Hj. unfold entry, mget, tabulate.
  rewrite decide_True by lia.
  rewrite list_lookup_fmap, lookup_seqZ_lt by lia. simpl.
  rewrite list_lookup_fmap, lookup_seqZ_lt by lia. simpl.
  f_equal; lia.
Qed.

Lemma foldl_sum_upto (g : Z → double) (n : nat) :
  foldl (λ acc k, add acc (g k)) zero (seqZ 0 (Z.of_nat n)) = sum_upto n g.
Proof.
  induction n as [|n IH]; [done|].
  rewrite seqZ_S, foldl_app, IH. done.
Qed.

(** Accumulating into the zero matrix gives the dense product. *)
Lemma accumulated_zeros N A B :
  0 ≤ N → accumulated N A B (zeros N) = dense_product N A B.
Proof.
  intros HN. apply (matrix_ext N); [apply square_tabulate..|].
  intros i j Hi Hj. unfold accumulated, dense_product.
  rewrite !entry_tabulate, entry_zeros by done.
  rewrite <- foldl_sum_upto, Z2Nat.id by done. done.
Qed.

(** * Worlds *)

Lemma advance_advance r t m r' t' m' w :
  advance r t m (advance r' t' m' w) = advance (r + r') (t + t') m w.
Proof. unfold advance. simpl. f_equal; lia. Qed.

Lemma advance_id w : advance 0 0 (mem w) w = w.
Proof. by destruct w. Qed.

(** * Projections of the three loop nests *)

Lemma block_work_proj NB NEIB p q i j :
  0 ≤ NB → 0 ≤ NEIB →
  block_work NB NEIB p q ≫= proj i j
  = if decide (i ∈ seqZ (p * NEIB) NEIB ∧ j ∈ seqZ (q * NEIB) NEIB)
    then seqZ 0 (NB * NEIB) else [].
Proof.
  intros HNB HNEIB. unfold block_work. rewrite bind_assoc.
  rewrite (bind_ext_in _ _
    (λ r, if decide (i ∈ seqZ (p * NEIB) NEIB ∧ j ∈ seqZ (q * NEIB) NEIB)
          then seqZ (r * NEIB) NEIB else [])).
  - case_decide.
    + rewrite <- (Z2Nat.id NB) by done. by apply blocks_tile.
    + by apply bind_all_nil.
  - intros r _. apply nest_proj; apply NoDup_seqZ.
Qed.

Lemma row_work_proj N i i0 j0 :
  row_work N i ≫= proj i0 j0
  = if decide (i = i0 ∧ j0 ∈ seqZ 0 N) then seqZ 0 N else [].
Proof.
  unfold row_work.
  pose proof (nest_proj [i] (seqZ 0 N) (seqZ 0 N) i0 j0) as H.
  rewrite bind_singleton in H. rewrite H; [|apply NoDup_singleton|apply NoDup_seqZ].
  case_decide as H1; case_decide as H2; try done.
  - destruct H2. destruct H1 as [->%list_elem_of_singleton ?]. done.
  - destruct H1. destruct H2 as [-> ?]. split; [|done].
    by apply list_elem_of_singleton.
Qed.

Lemma block_work_in_range NB NEIB p q :
  0 < NEIB → 0 ≤ p < NB → 0 ≤ q < NB →
  Forall (in_range (NB * NEIB)) (block_work NB NEIB p q).
Proof.
  intros HNEIB Hp Hq. unfold block_work.
  apply Forall_bind, Forall_seqZ. intros r Hr.
  apply Forall_bind, Forall_seqZ. intros i Hi.
  apply Forall_bind, Forall_seqZ. intros j Hj.
  apply Forall_bind, Forall_seqZ. intros k Hk.
  apply Forall_singleton. unfold in_range. nia.
Qed.

Lemma row_work_in_range N i :
  0 ≤ i < N → Forall (in_range N) (row_work N i).
Proof.
  intros Hi. unfold row_work.
  apply Forall_bind, Forall_seqZ. intros j Hj.
  apply Forall_bind, Forall_seqZ. intros k Hk.
  apply Forall_singleton. unfold in_range. lia.
Qed.

(** * Parallel regions over the multiply-accumulate statement *)

Section Strategies.
Context (E : runtime) (a b c : string) (N : Z) (A B : matrix).
Hypothesis (Hca : c ≠ a) (Hcb : c ≠ b).
Hypothesis (HA : square N A) (HB : square N B).

Lemma parallel_for_mac nThreads iters work w C :
  mem w !! a = Some A → mem w !! b = Some B → mem w !! c = Some C →
  square N C → 0 < nThreads →
  (∀ q, q ∈ iters → Forall (in_range N) (work q)) →
  ∃ C', parallel_for E nThreads iters work (mac a b c) w
        = Some (advance 1 0 (<[c := C']> (mem w)) w) ∧
        square N C' ∧
        ∀ i j, entry C' i j =
          foldl (accumulate A B i j) (entry C i j)
            (interleave (pick (sched E (regions w)))
               (team (Z.to_nat nThreads) (owner (sched E (regions w)))
                  iters work) ≫= proj i j).
Proof.
  intros Ha Hb Hc HC HT Hwork. unfold parallel_for.
  rewrite decide_False by lia. unfold lift.
  edestruct (for_mac a b c N A B Hca Hcb HA HB) as (C' & -> & HC' & Hent);
    [exact Ha|exact Hb|exact Hc|exact HC| |].
  { by apply region_Forall. }
  exists C'. done.
Qed.

(** The loop over the block rows [ps] of [blockedMatrixMultiplication]. *)
Lemma blocked_rows NB NEIB nThreads :
  0 < NEIB → 0 ≤ NB → N = NB * NEIB → 0 < nThreads →
  ∀ ps w C,
  mem w !! a = Some A → mem w !! b = Some B → mem w !! c = Some C →
  square N C → (∀ p, p ∈ ps → 0 ≤ p < NB) →
  ∃ C', for_ ps (λ p, parallel_for E nThreads (seqZ 0 NB)
                        (block_work NB NEIB p) (mac a b c)) w
        = Some (advance (length ps) 0 (<[c := C']> (mem w)) w) ∧
        square N C' ∧
        ∀ i j, 0 ≤ i < N → 0 ≤ j < N →
          entry C' i j =
          foldl (accumulate A B i j) (entry C i j)
            (ps ≫= λ p, if decide (i ∈ seqZ (p * NEIB) NEIB)
                        then seqZ 0 N else []).
Proof.
  intros HNEIB HNB HN HT ps.
  induction ps as [|p ps IH]; intros w C Ha Hb Hc HC Hps.
  - exists C. simpl. rewrite insert_id by done. by rewrite advance_id.
  - destruct (parallel_for_mac nThreads (seqZ 0 NB) (block_work NB NEIB p)
                w C Ha Hb Hc HC HT) as (C1 & Hpar & HC1 & Hent1).
    { intros q Hq%elem_of_seqZ. rewrite HN.
      apply block_work_in_range; [done| |lia]. apply Hps. by left. }
    destruct (IH (advance 1 0 (<[c := C1]> (mem w)) w) C1)
      as (C' & Hfor & HC' & Hent).
    { simpl. by rewrite lookup_insert_ne. }
    { simpl. by rewrite lookup_insert_ne. }
    { simpl. by rewrite lookup_insert_eq. }
    { done. }
    { intros. apply Hps. by right. }
    exists C'. split; [|split; [done|]].
    + cbn [for_]. rewrite Hpar. simpl. rewrite Hfor. simpl.
      rewrite advance_advance, insert_insert_eq. f_equal. f_equal. lia.
    + intros i j Hi Hj. rewrite (Hent i j Hi Hj), Hent1, bind_cons, foldl_app.
      f_equal. f_equal.
      assert (Hq0 : j `div` NEIB ∈ seqZ 0 NB).
      { apply elem_of_seqZ. split; [apply Z.div_pos; lia|].
        apply Z.div_lt_upper_bound; lia. }
      rewrite (region_bind_pick _ _ _ _ _ _ (j `div` NEIB));
        [|lia|apply NoDup_seqZ|done|].
      * rewrite block_work_proj by lia. rewrite <- HN.
        assert (Hj0 : j ∈ seqZ (j `div` NEIB * NEIB) NEIB).
        { apply elem_of_seqZ.
          pose proof (Z.mul_div_le j NEIB HNEIB).
          pose proof (Z.mul_succ_div_gt j NEIB HNEIB). lia. }
        repeat case_decide; tauto.
      * intros q Hq Hne. rewrite block_work_proj by lia.
        rewrite decide_False; [done|]. intros [_ Hjq%elem_of_seqZ].
        apply Hne. apply (Z.div_unique_pos j NEIB q (j - q * NEIB)); lia.
Qed.

End Strategies.

(** * The three strategies on N×N matrices *)

Section Specs.
Context (E : runtime) (a b c : string) (N : Z) (A B C : matrix) (w : world).
Hypothesis (Hca : c ≠ a) (Hcb : c ≠ b).
Hypothesis (HN : 0 ≤ N).
Hypothesis (HA : square N A) (HB : square N B) (HC : square N C).
Hypothesis (Ha : mem w !! a = Some A) (Hb : mem w !! b = Some B)
           (Hc : mem w !! c = Some C).

Lemma sequential_spec :
  sequentialMatrixMultiplication E a b c N w
  = Some ({| timestamp := sub (wtime E (S (ticks w))) (wtime E (ticks w));
             threads := 1 |},
          advance 0 2 (<[c := accumulated N A B C]> (mem w))
            (log_call Sequential 1 c w)).
Proof.
  unfold sequentialMatrixMultiplication, omp_get_wtime.
  rewrite (for_nest3 _ _ _ (λ x, lift (mac a b c x))), for_lift. unfold lift.
  edestruct (for_mac a b c N A B Hca Hcb HA HB) as (C' & -> & HC' & Hent);
    [exact Ha|exact Hb|exact Hc|exact HC| |].
  { apply Forall_bind, Forall_seqZ. intros i Hi.
    apply Forall_bind, Forall_seqZ. intros j Hj.
    apply Forall_bind, Forall_seqZ. intros k Hk.
    apply Forall_singleton. unfold in_range. lia. }
  simpl. replace C' with (accumulated N A B C); [done|].
  apply (matrix_ext N); [apply square_tabulate|done|].
  intros i j Hi Hj. unfold accumulated. rewrite entry_tabulate by done.
  rewrite Hent, nest_proj by apply NoDup_seqZ.
  rewrite decide_True; [done|]. split; apply elem_of_seqZ; lia.
Qed.

Lemma standard_spec nThreads :
  0 < nThreads →
  standardMatrixMultiplication E a b c N nThreads w
  = Some ({| timestamp := sub (wtime E (S (ticks w))) (wtime E (ticks w));
             threads := nThreads |},
          advance 1 2 (<[c := accumulated N A B C]> (mem w))
            (log_call Standard nThreads c w)).
Proof.
  intros HT. unfold standardMatrixMultiplication, omp_get_wtime.
  edestruct (parallel_for_mac E a b c N A B Hca Hcb HA HB nThreads
               (seqZ 0 N) (row_work N)
               (next_tick (log_call Standard nThreads c w)) C)
    as (C' & -> & HC' & Hent); [exact Ha|exact Hb|exact Hc|exact HC|done| |].
  { intros q Hq%elem_of_seqZ. apply row_work_in_range. lia. }
  simpl. replace C' with (accumulated N A B C); [done|].
  apply (matrix_ext N); [apply square_tabulate|done|].
  intros i j Hi Hj. unfold accumulated. rewrite entry_tabulate by done.
  rewrite Hent. f_equal.
  rewrite (region_bind_pick _ _ _ _ _ _ i);
    [|lia|apply NoDup_seqZ|apply elem_of_seqZ; lia|].
  - rewrite row_work_proj. rewrite decide_True; [done|].
    split; [done|apply elem_of_seqZ; lia].
  - intros q _ Hne. rewrite row_work_proj. rewrite decide_False; [done|].
    tauto.
Qed.

Lemma blocked_spec NEIB nThreads :
  0 < NEIB → Z.rem N NEIB = 0 → 0 < nThreads →
  blockedMatrixMultiplication E a b c N NEIB nThreads w
  = Some ({| timestamp := sub (wtime E (S (ticks w))) (wtime E (ticks w));
             threads := nThreads |},
          advance (Z.to_nat (N ÷ NEIB)) 2
            (<[c := accumulated N A B C]> (mem w))
            (log_call Blocked nThreads c w)).
Proof.
  intros HNEIB Hrem HT. unfold blockedMatrixMultiplication, omp_get_wtime.
  unfold cquot. rewrite !decide_False by lia. simpl.
  assert (HNB : 0 ≤ N ÷ NEIB) by (apply Z.quot_pos; lia).
  assert (HNeq : N = N ÷ NEIB * NEIB).
  { pose proof (Z.quot_rem' N NEIB). lia. }
  edestruct (blocked_rows E a b c N A B Hca Hcb HA HB (N ÷ NEIB) NEIB nThreads
               HNEIB HNB HNeq HT (seqZ 0 (N ÷ NEIB))
               (next_tick (log_call Blocked nThreads c w)) C)
    as (C' & -> & HC' & Hent); [exact Ha|exact Hb|exact Hc|exact HC| |].
  { by intros p Hp%elem_of_seqZ. }
  simpl. rewrite length_seqZ.
  replace C' with (accumulated N A B C); [done|].
  apply (matrix_ext N); [apply square_tabulate|done|].
  intros i j Hi Hj. unfold accumulated. rewrite entry_tabulate by done.
  rewrite (Hent i j Hi Hj). f_equal.
  assert (Hi0 : i ∈ seqZ (i `div` NEIB * NEIB) NEIB).
  { apply elem_of_seqZ.
    pose proof (Z.mul_div_le i NEIB HNEIB).
    pose proof (Z.mul_succ_div_gt i NEIB HNEIB). lia. }
  rewrite (bind_pick _ (i `div` NEIB)).
  - by rewrite decide_True.
  - apply NoDup_seqZ.
  - apply elem_of_seqZ. split; [apply Z.div_pos; lia|].
    apply Z.div_lt_upper_bound; lia.
  - intros p _ Hne. rewrite decide_False; [done|]. intros Hp%elem_of_seqZ.
    apply Hne. apply (Z.div_unique_pos i NEIB p (i - p * NEIB)); lia.
Qed.

(** With a negative block size there is no block row: the loop over [p]
    does not run and [c] is left as it was. *)
Lemma blocked_negative NEIB nThreads :
  NEIB < 0 →
  blockedMatrixMultiplication E a b c N NEIB nThreads w
  = Some ({| timestamp := sub (wtime E (S (ticks w))) (wtime E (ticks w));
             threads := nThreads |},
          advance 0 2 (mem w) (log_call Blocked nThreads c w)).
Proof.
  intros HNEIB. unfold blockedMatrixMultiplication, omp_get_wtime.
  unfold cquot, INT_MIN. rewrite !decide_False by lia. simpl.
  rewrite seqZ_nil; [done|].
  pose proof (Z.quot_opp_r N (- NEIB) ltac:(lia)) as Hq.
  rewrite Z.opp_involutive in Hq.
  pose proof (Z.quot_pos N (- NEIB) ltac:(lia) ltac:(lia)). lia.
Qed.

End Specs.

(** * The helpers of [main] *)

Lemma initializeMatrix_spec E name N (w : world) M :
  mem w !! name = Some M → square N M →
  initializeMatrix E name N true w
  = Some (next_fill (set_mem (<[name := drawn E (fills w) N]> (mem w)) w)).
Proof.
  intros Hm HM. unfold initializeMatrix.
  destruct (fill_all name N (rng E (fills w)) w M Hm HM) as (M' & -> & HM' & Hent).
  simpl. replace M' with (drawn E (fills w) N); [done|].
  apply (matrix_ext N); [apply square_tabulate|done|].
  intros i j Hi Hj. unfold drawn. by rewrite entry_tabulate, Hent.
Qed.

Lemma not_divisible_ok method N NEIB :
  (method = 1 → NEIB ≠ 0 ∧ Z.rem N NEIB = 0) →
  (method = 1 → ¬ (N = INT_MIN ∧ NEIB = -1)) →
  not_divisible method N NEIB = Some false.
Proof.
  intros H Hint. unfold not_divisible. case_decide as Hm; [|done].
  destruct (H Hm) as [H0 Hr]. unfold crem.
  rewrite decide_False by done. rewrite decide_False by auto.
  simpl. by rewrite Hr.
Qed.

Lemma nonnegative_not_INT_MIN N NEIB :
  0 ≤ N → ¬ (N = INT_MIN ∧ NEIB = -1).
Proof. unfold INT_MIN. lia. Qed.

Lemma not_divisible_bad N NEIB :
  NEIB ≠ 0 → Z.rem N NEIB ≠ 0 → not_divisible 1 N NEIB = Some true.
Proof.
  intros H0 Hr. unfold not_divisible. rewrite decide_True by done.
  unfold crem. rewrite decide_False by done.
  rewrite decide_False by (by intros [-> ->]).
  simpl. by apply Z.eqb_neq in Hr as ->.
Qed.

Lemma do_while_batch fuel body w :
  do_while fuel true body w =
  match body w with
  | None => Undefined
  | Some (Return status, w) => Exit status w
  | Some (Throw e, w) => Exit 0 (put Endl (put (What e) w))
  | Some (_, w) => Exit 0 w
  end.
Proof. destruct fuel; simpl; by destruct (body w) as [[[] ?]|]. Qed.

(** * Strategy calls on the matrices of [main] *)

Section Calls.
Context (E : runtime) (N : Z) (A B : matrix).
Hypothesis (HN : 0 ≤ N) (HA : square N A) (HB : square N B).


Lemma ready_advance r t C' w s n :
  ready N A B w → square N C' →
  ready N A B (advance r t (<["c" := C']> (mem w)) (log_call s n "c" w)).
Proof.
  intros (Ha & Hb & _) HC'. unfold ready. cbn [mem advance].
  rewrite !lookup_insert_ne by done. rewrite lookup_insert_eq. eauto.
Qed.

Lemma ready_reset w :
  ready N A B w →
  reset_result_matrix "c" N w = Some (set_mem (<["c" := zeros N]> (mem w)) w)
  ∧ ready N A B (set_mem (<["c" := zeros N]> (mem w)) w).
Proof.
  intros (Ha & Hb & C & Hc & HC). split.
  - by apply reset_result_matrix_spec with C.
  - unfold ready. cbn [mem set_mem].
    rewrite !lookup_insert_ne by done. rewrite lookup_insert_eq.
    eauto using square_zeros.
Qed.

Lemma blocked_total NEIB n w C :
  mem w !! "a" = Some A → mem w !! "b" = Some B → mem w !! "c" = Some C →
  square N C → NEIB ≠ 0 → Z.rem N NEIB = 0 → 0 < n →
  ∃ r C',
    blockedMatrixMultiplication E "a" "b" "c" N NEIB n w
    = Some ({| timestamp := sub (wtime E (S (ticks w))) (wtime E (ticks w));
               threads := n |},
            advance r 2 (<["c" := C']> (mem w)) (log_call Blocked n "c" w))
    ∧ square N C'.
Proof.
  intros Ha Hb Hc HC H0 Hrem Hn.
  destruct (decide (0 < NEIB)) as [Hpos|Hneg].
  - exists (Z.to_nat (N ÷ NEIB)), (accumulated N A B C).
    split; [|apply square_tabulate].
    apply blocked_spec; try done.
  - exists 0%nat, C. split; [|done].
    rewrite insert_id by done. apply blocked_negative; lia.
Qed.

End Calls.

Section Harness.
Context (E : runtime) (N : Z) (A B : matrix).
Hypothesis (HN : 0 ≤ N) (HA : square N A) (HB : square N B).


Lemma multiplies_sequential :
  multiplies E N A B (sequentialMatrixMultiplication E "a" "b" "c" N) Sequential 1.
Proof.
  intros w C Ha Hb Hc HC.
  exists 0%nat, (accumulated N A B C). split; [|apply square_tabulate].
  by apply sequential_spec.
Qed.

Lemma multiplies_standard n :
  0 < n →
  multiplies E N A B (standardMatrixMultiplication E "a" "b" "c" N n) Standard n.
Proof.
  intros Hn w C Ha Hb Hc HC.
  exists 1%nat, (accumulated N A B C). split; [|apply square_tabulate].
  by apply standard_spec.
Qed.

Lemma multiplies_blocked NEIB n :
  NEIB ≠ 0 → Z.rem N NEIB = 0 → 0 < n →
  multiplies E N A B (blockedMatrixMultiplication E "a" "b" "c" N NEIB n) Blocked n.
Proof. intros H0 Hr Hn w C Ha Hb Hc HC. by apply blocked_total with A B C. Qed.

(** A reset of [c] followed by a strategy call. *)
Lemma reset_then_call f s n w :
  multiplies E N A B f s n → ready N A B w →
  ∃ w0 w',
    reset_result_matrix "c" N w = Some w0
    ∧ f w0
      = Some ({| timestamp := sub (wtime E (S (ticks w))) (wtime E (ticks w));
                 threads := n |}, w')
    ∧ ready N A B w' ∧ same_streams w w' ∧ ticks w' = (2 + ticks w)%nat
    ∧ calls w' = calls w ++ [clean_call N s n].
Proof.
  intros Hf Hw. destruct (ready_reset N A B w Hw) as [Hreset Hw'].
  destruct Hw' as (Ha & Hb & C & Hc & HC).
  destruct (Hf _ C Ha Hb Hc HC) as (r & C' & Hcall & HC').
  eexists _, _. split; [exact Hreset|]. split; [exact Hcall|].
  split; [|split; [done|split; [done|]]].
  - apply ready_advance; [|done]. unfold ready. eauto.
  - cbn [calls advance log_call mem set_mem]. rewrite lookup_insert_eq. done.
Qed.

Lemma multiplies_selected method NEIB n :
  (method = 1 → NEIB ≠ 0 ∧ Z.rem N NEIB = 0) → 0 < n →
  multiplies E N A B
    (λ w, if decide (method = 3)
          then sequentialMatrixMultiplication E "a" "b" "c" N w
          else if decide (method = 1)
          then blockedMatrixMultiplication E "a" "b" "c" N NEIB n w
          else standardMatrixMultiplication E "a" "b" "c" N n w)
    (selected method) (if decide (method = 3) then 1 else n).
Proof.
  intros Hvalid Hn. unfold selected.
  destruct (decide (method = 3)); [apply multiplies_sequential|].
  destruct (decide (method = 1)) as [H1|];
    [apply multiplies_blocked; tauto|by apply multiplies_standard].
Qed.

Lemma single_run_spec method NEIB n w :
  ready N A B w → (method = 1 → NEIB ≠ 0 ∧ Z.rem N NEIB = 0) → 0 < n →
  ∃ w',
    single_run E method N NEIB n w = Some w'
    ∧ out w' = out w ++ csv_line method n
                 (sub (wtime E (S (ticks w))) (wtime E (ticks w)))
    ∧ calls w' = calls w ++ [clean_call N (selected method)
                               (if decide (method = 3) then 1 else n)].
Proof.
  intros Hw Hvalid Hn.
  destruct (reset_then_call _ _ _ w (multiplies_selected method NEIB n Hvalid Hn) Hw)
    as (w0 & w' & Hreset & Hcall & _ & (Hout & _) & _ & Hcalls).
  unfold single_run. rewrite Hreset. cbn [mbind option_bind].
  rewrite Hcall. cbn [mbind option_bind].
  eexists. split; [done|].
  cbn [out calls put put_double setprecision timestamp precision].
  rewrite Hout, Hcalls. split; [|done].
  unfold csv_line. by rewrite <- !app_assoc.
Qed.

Lemma sweep_step_eq method NEIB i s rs w :
  sweep_step E method N NEIB i (s, rs, w) =
  w ← reset_result_matrix "c" N w;
  '(result, w) ←
    (if decide (method = 1)
     then blockedMatrixMultiplication E "a" "b" "c" N NEIB (i + 1) w
     else standardMatrixMultiplication E "a" "b" "c" N (i + 1) w);
  Some (if decide (i = 0) then timestamp result else s,
        rs ++ [(to_short (i + 1), result)], w).
Proof. done. Qed.

(** The turns of the sweep after the first one: the baseline is kept. *)
Lemma sweep_rest method NEIB (Hm : method ≠ 3)
    (Hvalid : method = 1 → NEIB ≠ 0 ∧ Z.rem N NEIB = 0) :
  ∀ (turns : list Z) s rs w,
  (∀ i, i ∈ turns → 0 < i < 32767) → ready N A B w →
  ∃ rs' w',
    for_ turns (sweep_step E method N NEIB) (s, rs, w)
    = Some (s, rs ++ rs', w')
    ∧ ready N A B w' ∧ same_streams w w'
    ∧ rs'.*1 = (λ i, i + 1) <$> turns
    ∧ calls w' = calls w ++
                  ((λ i, clean_call N (selected method) (i + 1)) <$> turns).
Proof.
  induction turns as [|i turns IH]; intros s rs w Hturns Hw.
  - exists [], w. rewrite !app_nil_r. done.
  - assert (Hi : 0 < i < 32767) by (apply Hturns; left).
    destruct (reset_then_call _ _ _ w
                (multiplies_selected method NEIB (i + 1) Hvalid ltac:(lia)) Hw)
      as (w0 & w1 & Hreset & Hcall & Hw1 & Hs1 & _ & Hcalls1).
    destruct (decide (method = 3)) as [|_]; [done|].
    destruct (IH s (rs ++ [(to_short (i + 1),
                {| timestamp := sub (wtime E (S (ticks w))) (wtime E (ticks w));
                   threads := i + 1 |})]) w1)
      as (rs' & w' & Hfor & Hw' & Hs' & Hrs' & Hcalls'); [|done|].
    { intros. apply Hturns. by right. }
    eexists (_ :: rs'), w'. split; [|split; [done|split; [|split]]].
    + cbn [for_]. rewrite sweep_step_eq, Hreset.
      cbn [mbind option_bind]. rewrite Hcall. cbn [mbind option_bind timestamp].
      rewrite (decide_False (P := i = 0)) by lia. rewrite Hfor.
      by rewrite <- app_assoc.
    + destruct Hs1 as (? & ? & ? & ?), Hs' as (? & ? & ? & ?).
      unfold same_streams. split_and!; congruence.
    + rewrite !fmap_cons, Hrs'. cbn [fst]. f_equal.
      unfold to_short. rewrite Z.mod_small by lia. lia.
    + rewrite Hcalls', Hcalls1, fmap_cons, <- app_assoc. done.
Qed.

(** The branch that runs the full analysis. *)
Lemma full_analysis_spec method NEIB w :
  ready N A B w → (method = 1 → NEIB ≠ 0 ∧ Z.rem N NEIB = 0) →
  let t1 := sub (wtime E (S (ticks w))) (wtime E (ticks w)) in
  let counts := if decide (method = 3) then [1] else seqZ 1 16 in
  ∃ r1 rs w',
    full_analysis E method N NEIB w = Some (t1, (1, r1) :: rs, w')
    ∧ timestamp r1 = t1
    ∧ same_streams w w'
    ∧ 1 :: rs.*1 = counts
    ∧ calls w' = calls w ++ (clean_call N (selected method) <$> counts).
Proof.
  intros Hw Hvalid t1 counts. unfold full_analysis, counts.
  destruct (decide (method = 3)) as [H3|H3].
  - destruct (reset_then_call _ _ _ w multiplies_sequential Hw)
      as (w0 & w' & -> & Hcall & _ & Hs & _ & Hcalls).
    cbn [mbind option_bind]. rewrite Hcall. cbn [mbind option_bind timestamp].
    eexists _, [], w'. split; [done|]. split; [done|]. split; [done|].
    split; [done|]. rewrite Hcalls. unfold selected. by rewrite decide_True.
  - unfold maxThreads. rewrite (seqZ_cons 0 16) by lia. cbn [for_].
    destruct (reset_then_call _ _ _ w
                (multiplies_selected method NEIB (0 + 1) Hvalid ltac:(lia)) Hw)
      as (w0 & w1 & Hreset & Hcall & Hw1 & Hs1 & _ & Hcalls1).
    destruct (decide (method = 3)) as [|_]; [done|].
    rewrite sweep_step_eq, Hreset. cbn [mbind option_bind].
    rewrite Hcall. cbn [mbind option_bind timestamp].
    rewrite decide_True by done.
    destruct (sweep_rest method NEIB H3 Hvalid (seqZ (Z.succ 0) (Z.pred 16))
                t1 ([] ++ [(to_short (0 + 1),
                   {| timestamp := t1; threads := 0 + 1 |})]) w1)
      as (rs' & w' & Hfor & Hw' & Hs' & Hrs' & Hcalls'); [|done|].
    { intros i Hi%elem_of_seqZ. lia. }
    fold t1. rewrite Hfor.
    eexists _, rs', w'. split; [done|]. split; [done|]. split; [|split].
    + destruct Hs1 as (? & ? & ? & ?), Hs' as (? & ? & ? & ?).
      unfold same_streams. split_and!; congruence.
    + rewrite Hrs'. reflexivity.
    + rewrite Hcalls', Hcalls1, <- app_assoc. reflexivity.
Qed.

End Harness.

(** * The report *)

Lemma report_row_out s r w : out (report_row s r w) = out w ++ row_items s r.
Proof.
  unfold report_row, row_items.
  cbn [out put put_double setprecision precision].
  by rewrite <- !app_assoc.
Qed.

Lemma report_row_calls s r w : calls (report_row s r w) = calls w.
Proof. done. Qed.

Lemma report_rows_out s rs w :
  out (foldl (λ w r, report_row s r w) w rs) = out w ++ (rs ≫= row_items s).
Proof.
  revert w. induction rs as [|r rs IH]; intros w; simpl.
  - by rewrite app_nil_r.
  - rewrite IH, report_row_out. by rewrite <- app_assoc.
Qed.

Lemma report_rows_calls s rs w :
  calls (foldl (λ w r, report_row s r w) w rs) = calls w.
Proof. revert w. induction rs as [|r rs IH]; intros w; simpl; [done|]. by rewrite IH. Qed.

Lemma report_out s rs w :
  out (report s rs w) = out w ++ report_header ++ (rs ≫= row_items s).
Proof.
  unfold report. rewrite report_rows_out. cbn [out put].
  unfold report_header. by rewrite <- !app_assoc.
Qed.

Lemma report_calls s rs w : calls (report s rs w) = calls w.
Proof. unfold report. by rewrite report_rows_calls. Qed.

(** * The body of the loop of [main], in batch mode *)

Section Batch.
Context (E : runtime) (N NEIB method : Z).

Lemma experiment_rejects specificThreads w :
  method = 1 → NEIB ≠ 0 → Z.rem N NEIB ≠ 0 →
  experiment E true N NEIB method specificThreads w
  = Some (Return 1, put Endl (put (Text divisibility_error) w)).
Proof.
  intros -> H0 Hr. unfold experiment. by rewrite not_divisible_bad.
Qed.

Lemma experiment_throws specificThreads w :
  (method = 1 → NEIB ≠ 0 ∧ Z.rem N NEIB = 0) →
  (method = 1 → ¬ (N = INT_MIN ∧ NEIB = -1)) →
  N < 0 ∨ enough_memory E N = false →
  experiment E true N NEIB method specificThreads w
  = Some (Throw (if decide (N < 0) then length_error else bad_alloc), w).
Proof.
  intros Hvalid Hint Hmem. unfold experiment.
  rewrite not_divisible_ok by done.
  unfold vector_ctor. case_decide; [done|].
  destruct Hmem as [?|Hm]; [lia|]. by rewrite Hm.
Qed.

Hypothesis (Hvalid : method = 1 → NEIB ≠ 0 ∧ Z.rem N NEIB = 0).
Hypothesis (HN : 0 ≤ N) (Hmem : enough_memory E N = true).

(** The construction and the initialisation of the three matrices. *)
Lemma experiment_prepares specificThreads w :
  ∃ w1,
    ready N (drawn E (fills w) N) (drawn E (S (fills w)) N) w1
    ∧ out w1 = out w ∧ calls w1 = calls w ∧ ticks w1 = ticks w
    ∧ experiment E true N NEIB method specificThreads w
      = if bool_decide (0 < specificThreads)
        then single_run E method N NEIB specificThreads w1
             ≫= λ w, Some (Return 0, w)
        else full_analysis E method N NEIB w1
             ≫= λ '(s, rs, w), Some (Next, report s rs w).
Proof.
  unfold experiment.
  rewrite not_divisible_ok
    by (done || by intros _; apply nonnegative_not_INT_MIN).
  unfold vector_ctor. rewrite decide_False by lia. rewrite Hmem.
  set (m0 := <["c" := zeros N]> (<["b" := zeros N]> (<["a" := zeros N]> (mem w)))).
  rewrite (initializeMatrix_spec E "a" N (set_mem m0 w) (zeros N));
    [|by subst m0; cbn [mem set_mem]; rewrite !lookup_insert_ne, lookup_insert_eq by done
     |apply square_zeros].
  cbn [mbind option_bind].
  rewrite (initializeMatrix_spec E "b" N _ (zeros N));
    [|by subst m0; cbn [mem set_mem next_fill];
         rewrite !lookup_insert_ne, lookup_insert_eq by done
     |apply square_zeros].
  cbn [mbind option_bind andb fills set_mem next_fill mem].
  eexists. split; [|split; [|split; [|split]]]; cycle 4.
  - reflexivity.
  - unfold ready. cbn [mem set_mem next_fill]. subst m0.
    rewrite !lookup_insert_ne, !lookup_insert_eq by done.
    rewrite !lookup_insert_ne, !lookup_insert_eq by done.
    split; [done|]. split; [done|]. eauto using square_zeros.
  - done.
  - done.
  - done.
Qed.

End Batch.

(** * The prompt loop *)

Lemma prompt_never_breaks v w :
  match prompt v w with
  | Break _ _ => False
  | Again _ w' | Await w' =>
      calls w' = calls w ∧ mem w' = mem w ∧
      ∃ texts, out w' = out w ++ texts ∧
               Forall (λ x, match x with Text _ | Endl => True | _ => False end)
                 texts
  | Crash => True
  end.
Proof.
  unfold prompt, cin. simpl.
  destruct (stdin w) as [|x1 [|x2 [|x3 rest]]]; simpl.
  1-3: split; [done|split; [done|]]; eexists; split;
       [rewrite <- ?app_assoc; reflexivity|]; repeat constructor.
  destruct (not_divisible x3 x1 x2) as [[]|]; [| |done].
  all: simpl; split; [done|split; [done|]]; eexists; split;
       [rewrite <- ?app_assoc; reflexivity|]; repeat constructor.
Qed.

Lemma while_true_prompt fuel :
  ∀ v w,
  match while_true fuel prompt v w with
  | Break _ _ => False
  | Again _ w' | Await w' =>
      calls w' = calls w ∧ mem w' = mem w ∧
      ∃ texts, out w' = out w ++ texts ∧
               Forall (λ x, match x with Text _ | Endl => True | _ => False end)
                 texts
  | Crash => True
  end.
Proof.
  induction fuel as [|fuel IH]; intros v w; cbn [while_true].
  - split; [done|split; [done|]]. exists []. by rewrite app_nil_r.
  - pose proof (prompt_never_breaks v w) as Hp.
    destruct (prompt v w) as [| v1 w1 | w1 |]; [done| |done..].
    destruct Hp as (Hc1 & Hm1 & t1 & Ho1 & Ht1).
    specialize (IH v1 w1).
    destruct (while_true fuel prompt v1 w1) as [| v2 w2 | w2 |]; [done| | |done].
    all: destruct IH as (Hc2 & Hm2 & t2 & Ho2 & Ht2).
    all: split; [congruence|split; [congruence|]].
    all: exists (t1 ++ t2); rewrite Ho2, Ho1, <- app_assoc; split; [done|].
    all: by apply Forall_app.
Qed.

(** * Doubles *)

Lemma div_self s m e : div (S754_finite s m e) (S754_finite s m e) = one.
Proof.
  unfold div, SFdiv, SFdiv_core_binary.
  replace (Zdigits2 (Z.pos m) + e - (Zdigits2 (Z.pos m) + e)) with 0 by lia.
  replace (e - e) with 0 by lia.
  change (Z.min (fexp prec emax 0) 0) with (-53).
  change (0 - -53) with 53.
  cbv beta iota zeta.
  rewrite Z.shiftl_mul_pow2 by lia.
  assert (H : Z.div_eucl (Z.pos m * 2 ^ 53) (Z.pos m) = (2 ^ 53, 0)).
  { pose proof (Z.div_mul (2 ^ 53) (Z.pos m) ltac:(lia)) as Hq.
    pose proof (Z.mod_mul (2 ^ 53) (Z.pos m) ltac:(lia)) as Hr.
    rewrite (Z.mul_comm (Z.pos m)).
    unfold Z.modulo, Z.div in Hq, Hr.
    destruct (Z.div_eucl _ _) as [q r]. simpl in Hq, Hr. by subst. }
  rewrite H.
  assert (Hl : new_location (Z.pos m) 0 = loc_Exact).
  { unfold new_location. destruct (Z.even _); reflexivity. }
  rewrite Hl. destruct s; reflexivity.
Qed.

Lemma div_by_zero x z : is_zero z = true → is_inf_or_nan (div x z) = true.
Proof. destruct z; [|done..]. intros _. by destruct x. Qed.

Lemma div_of_inf_or_nan x y :
  is_inf_or_nan x = true → is_inf_or_nan (div x y) = true.
Proof. destruct x; [done| | |done]; intros _; by destruct y. Qed.

(** * [main] in batch mode *)

Lemma main_batch E fuel N NEIB method specificThreads input :
  main E fuel (Batch N NEIB method specificThreads) input =
  match experiment E true N NEIB (to_short method) specificThreads
          (started input) with
  | None => Undefined
  | Some (Return status, w) => Exit status w
  | Some (Throw e, w) => Exit 0 (put Endl (put (What e) w))
  | Some (_, w) => Exit 0 w
  end.
Proof. unfold main. by rewrite do_while_batch. Qed.

(** C2: for every (N, NEIB) with N % NEIB != 0 and the blocked method, the
    configuration is rejected before any multiplication work.  In batch
    mode [main] prints the diagnostic and returns 1, having constructed no
    matrix and called no strategy; in interactive mode the turn of the
    prompt loop prints the diagnostic and the loop prompts again, the
    matrices and the list of strategy calls being left as they were. *)
Theorem indivisible_blocked_is_rejected (E : runtime) (N NEIB : Z) :
  NEIB ≠ 0 → Z.rem N NEIB ≠ 0 →
  (∀ fuel method specificThreads input,
     to_short method = 1 →
     ∃ w, main E fuel (Batch N NEIB method specificThreads) input = Exit 1 w
          ∧ out w = [Endl; Text divisibility_error; Endl]
          ∧ calls w = [] ∧ mem w = ∅)
  ∧ (∀ v w rest,
       stdin w = N :: NEIB :: 1 :: rest →
       ∃ w', prompt v w = Again (N, NEIB, 1) w'
             ∧ out w' = out w ++ prompts
                          ++ [Text ("   " +:+ divisibility_error); Endl]
             ∧ stdin w' = rest ∧ calls w' = calls w ∧ mem w' = mem w
             ∧ ∀ fuel, while_true (S fuel) prompt v w
                       = while_true fuel prompt (N, NEIB, 1) w').
Proof.
  intros H0 Hr. split.
  - intros fuel method specificThreads input Hm.
    rewrite main_batch, Hm, experiment_rejects by done.
    eexists. split; [done|]. done.
  - intros v w rest Hin.
    assert (Hp : prompt v w = Again (N, NEIB, 1)
              (put Endl (put (Text ("   " +:+ divisibility_error))
                 {| mem := mem w; ticks := ticks w; regions := regions w;
                    fills := fills w; precision := precision w;
                    out := out w ++ prompts; stdin := rest;
                    calls := calls w |}))).
    { unfold prompt, cin. simpl. rewrite Hin. simpl.
      rewrite not_divisible_bad by done. unfold prompts.
      by rewrite <- !app_assoc. }
    eexists. split; [exact Hp|]. split; [|split; [done|split; [done|split; [done|]]]].
    + simpl. by rewrite <- !app_assoc.
    + intros fuel. cbn [while_true]. by rewrite Hp.
Qed.

Lemma indivisible_blocked_is_rejected_witness :
  (∀ fuel method specificThreads input,
     to_short method = 1 →
     ∃ w, main sample_runtime fuel (Batch 5 2 method specificThreads) input
          = Exit 1 w
          ∧ out w = [Endl; Text divisibility_error; Endl]
          ∧ calls w = [] ∧ mem w = ∅)
  ∧ (∀ v w rest,
       stdin w = 5 :: 2 :: 1 :: rest →
       ∃ w', prompt v w = Again (5, 2, 1) w'
             ∧ out w' = out w ++ prompts
                          ++ [Text ("   " +:+ divisibility_error); Endl]
             ∧ stdin w' = rest ∧ calls w' = calls w ∧ mem w' = mem w
             ∧ ∀ fuel, while_true (S fuel) prompt v w
                       = while_true fuel prompt (5, 2, 1) w').
Proof.
  apply (indivisible_blocked_is_rejected sample_runtime 5 2);
    [lia | vm_compute; lia].
Defined.

(** C4: in interactive mode the program never leaves the prompt loop,
    whatever is typed: [main] does not return, calls no strategy, touches
    no matrix, and writes nothing but prompts and diagnostics.  With the
    valid triple N = 4, NEIB = 2, method = 1, it prompts for the next
    triple. *)
Theorem interactive_mode_stays_in_prompt_loop :
  (∀ E fuel input,
     match main E fuel Interactive input with
     | Exit _ _ => False
     | Running w =>
         calls w = [] ∧ mem w = ∅ ∧
         Forall (λ x, match x with Text _ | Endl => True | _ => False end)
           (out w)
     | Undefined => True
     end)
  ∧ (∀ E fuel,
       ∃ w, main E (S (S fuel)) Interactive [4; 2; 1] = Running w
            ∧ out w = Endl :: prompts ++ [Text "   Matrix size (N): "]
            ∧ calls w = []).
Proof.
  split.
  - intros E fuel input. unfold main.
    pose proof (while_true_prompt fuel (0, 0, 0) (started input)) as H.
    unfold started in H.
    destruct (while_true fuel prompt (0, 0, 0) _)
      as [| v w | w |]; [destruct H| | |exact I].
    all: destruct H as (Hc & Hm & texts & Ho & Ht).
    all: split; [by rewrite Hc|split; [by rewrite Hm|]].
    all: rewrite Ho; apply Forall_app; split; [repeat constructor|done].
  - intros E fuel. unfold main. cbn [while_true].
    remember (prompt (0, 0, 0) (put Endl (setprecision 8 (initial [4; 2; 1]))))
      as t1 eqn:Ht1.
    vm_compute in Ht1. subst t1. cbv beta iota.
    remember (prompt _ _) as t2 eqn:Ht2 in |- *.
    vm_compute in Ht2. subst t2. cbv beta iota.
    eexists. split; [reflexivity|]. split; reflexivity.
Qed.

(** What [main] does in batch mode when the configuration passes the
    divisibility check, the matrices can be constructed and the thread
    count is not positive: the full analysis and its report. *)
Lemma main_full_analysis E fuel N NEIB method specificThreads input :
  specificThreads ≤ 0 → 0 ≤ N → enough_memory E N = true →
  (to_short method = 1 → NEIB ≠ 0 ∧ Z.rem N NEIB = 0) →
  let t1 := sub (wtime E 1) (wtime E 0) in
  let counts := if decide (to_short method = 3) then [1] else seqZ 1 16 in
  ∃ w r1 rs,
    main E fuel (Batch N NEIB method specificThreads) input = Exit 0 w
    ∧ timestamp r1 = t1
    ∧ 1 :: rs.*1 = counts
    ∧ out w = Endl :: report_header ++ row_items t1 (1, r1)
                ++ (rs ≫= row_items t1)
    ∧ calls w = clean_call N (selected (to_short method)) <$> counts.
Proof.
  intros Hthr HN Hmem Hvalid t1 counts. rewrite main_batch.
  destruct (experiment_prepares E N NEIB (to_short method) Hvalid HN Hmem
              specificThreads (started input))
    as (w1 & Hw1 & Ho1 & Hc1 & Ht1 & ->).
  rewrite bool_decide_eq_false_2 by lia.
  destruct (full_analysis_spec E N _ _ HN (square_tabulate _ _)
              (square_tabulate _ _) (to_short method) NEIB w1 Hw1 Hvalid)
    as (r1 & rs & w' & -> & Hr1 & (Ho' & _) & Hcounts & Hcalls).
  cbn [mbind option_bind]. rewrite Ht1 in *.
  exists (report t1 ((1, r1) :: rs) w'), r1, rs.
  split; [done|]. split; [done|]. split; [done|]. split.
  - by rewrite report_out, Ho', Ho1.
  - by rewrite report_calls, Hcalls, Hc1.
Qed.

(** C5, amended: in batch mode with a positive thread count and a
    configuration that passes the divisibility check (the method is not
    blocked, or NEIB is not 0 and N % NEIB == 0), with N >= 0 and enough
    memory for the matrices, the program performs exactly one
    multiplication run, entered with a zeroed output matrix, writes after
    the initial empty line exactly one line [method,threads,elapsed_time]
    with the elapsed time at precision 8, and returns 0. *)
Theorem batch_single_run E fuel N NEIB method specificThreads input :
  0 < specificThreads → 0 ≤ N → enough_memory E N = true →
  (to_short method = 1 → NEIB ≠ 0 ∧ Z.rem N NEIB = 0) →
  ∃ w,
    main E fuel (Batch N NEIB method specificThreads) input = Exit 0 w
    ∧ calls w = [clean_call N (selected (to_short method))
                   (if decide (to_short method = 3) then 1
                    else specificThreads)]
    ∧ out w = Endl :: csv_line (to_short method) specificThreads
                        (sub (wtime E 1) (wtime E 0)).
Proof.
  intros Hthr HN Hmem Hvalid. rewrite main_batch.
  destruct (experiment_prepares E N NEIB (to_short method) Hvalid HN Hmem
              specificThreads (started input))
    as (w1 & Hw1 & Ho1 & Hc1 & Ht1 & ->).
  rewrite bool_decide_eq_true_2 by lia.
  destruct (single_run_spec E N _ _ HN (square_tabulate _ _)
              (square_tabulate _ _) (to_short method) NEIB specificThreads
              w1 Hw1 Hvalid Hthr)
    as (w' & -> & Ho' & Hc').
  cbn [mbind option_bind]. exists w'. split; [done|].
  rewrite Hc', Ho', Hc1, Ho1, Ht1. done.
Qed.

(** The instance of the specification: N=100, NEIB=10, method=1,
    threads=4. *)
Lemma batch_single_run_witness :
  ∃ w,
    main sample_runtime 0 (Batch 100 10 1 4) [] = Exit 0 w
    ∧ calls w = [clean_call 100 (selected (to_short 1))
                   (if decide (to_short 1 = 3) then 1 else 4)]
    ∧ out w = Endl :: csv_line (to_short 1) 4
                        (sub (wtime sample_runtime 1) (wtime sample_runtime 0)).
Proof.
  apply (batch_single_run sample_runtime 0 100 10 1 4 []);
    [lia | lia | reflexivity | intros _; split; [lia | reflexivity]].
Defined.

(** C5 as stated fails: with the positive thread count 4 and N=5, NEIB=2,
    method=1, the program performs no multiplication run, writes no line
    [method,threads,elapsed_time] and returns 1. *)
Lemma batch_single_run_counterexample :
  ∃ w,
    main sample_runtime 0 (Batch 5 2 1 4) [] = Exit 1 w
    ∧ calls w = []
    ∧ out w = [Endl; Text divisibility_error; Endl].
Proof. eexists. split; [vm_compute; reflexivity|]. split; reflexivity. Qed.

(** C9, amended: a thread count <= 0 is not treated as an error: it
    selects the thread sweep.  A batch invocation with such a count goes
    through the checks of every batch run -- undefined behaviour when the
    blocked method evaluates [N % NEIB] for NEIB = 0 or for INT_MIN and -1;
    the diagnostic and status 1 when the method is blocked and
    N % NEIB != 0; the message of the exception and status 0 when the
    matrices cannot be constructed -- and otherwise calls the selected
    strategy once for each thread count 1, ..., 16 in this order (once,
    with 1 thread, for the sequential method), each time on a zeroed
    output matrix, prints the table of these runs and returns 0.  The
    supplied count is used by no run. *)
Theorem batch_nonpositive_threads E fuel N NEIB method specificThreads input :
  specificThreads ≤ 0 →
  let m := to_short method in
  let run := main E fuel (Batch N NEIB method specificThreads) input in
  let counts := if decide (m = 3) then [1] else seqZ 1 16 in
  (specificThreads ∉ counts)
  ∧ (if decide (m = 1 ∧ (NEIB = 0 ∨ (N = INT_MIN ∧ NEIB = -1)))
    then run = Undefined
    else if decide (m = 1 ∧ Z.rem N NEIB ≠ 0)
    then ∃ w, run = Exit 1 w
              ∧ out w = [Endl; Text divisibility_error; Endl]
              ∧ calls w = []
    else if decide (N < 0)
    then ∃ w, run = Exit 0 w
              ∧ out w = [Endl; What length_error; Endl] ∧ calls w = []
    else if enough_memory E N
    then ∃ w rows,
           run = Exit 0 w
           ∧ rows.*1 = counts
           ∧ out w = Endl :: report_header
                       ++ (rows ≫= row_items (sub (wtime E 1) (wtime E 0)))
           ∧ calls w = clean_call N (selected m) <$> counts
    else ∃ w, run = Exit 0 w
              ∧ out w = [Endl; What bad_alloc; Endl] ∧ calls w = []).
Proof.
  intros Hthr. cbv zeta. split.
  { case_decide.
    - intros ->%list_elem_of_singleton. lia.
    - intros ?%elem_of_seqZ. lia. }
  destruct (decide (to_short method = 1
                    ∧ (NEIB = 0 ∨ (N = INT_MIN ∧ NEIB = -1))))
    as [[Hm Hbad]|Hdef].
  { rewrite main_batch. unfold experiment, not_divisible, crem. rewrite Hm.
    rewrite decide_True by done. destruct Hbad as [->|[-> ->]]; [done|].
    rewrite decide_False by done. by rewrite decide_True. }
  destruct (decide (to_short method = 1 ∧ Z.rem N NEIB ≠ 0)) as [[Hm Hr]|Hok].
  { rewrite main_batch, experiment_rejects by (done || tauto). by eexists. }
  assert (Hvalid : to_short method = 1 → NEIB ≠ 0 ∧ Z.rem N NEIB = 0).
  { intros Hm. split; [tauto|]. destruct (decide (Z.rem N NEIB = 0)); tauto. }
  assert (Hint : to_short method = 1 → ¬ (N = INT_MIN ∧ NEIB = -1)) by tauto.
  destruct (decide (N < 0)) as [Hneg|HN].
  { rewrite main_batch, experiment_throws by (done || by left).
    rewrite decide_True by done. by eexists. }
  destruct (enough_memory E N) eqn:Hmem.
  - destruct (main_full_analysis E fuel N NEIB method specificThreads input
                Hthr ltac:(lia) Hmem Hvalid)
      as (w & r1 & rs & -> & _ & Hcounts & Ho & Hc).
    exists w, ((1, r1) :: rs). split; [done|]. split; [done|].
    split; [|done]. by rewrite Ho, bind_cons.
  - rewrite main_batch, experiment_throws by (done || by right).
    rewrite decide_False by done. by eexists.
Qed.

Lemma batch_nonpositive_threads_witness :
  let m := to_short 2 in
  let run := main sample_runtime 0 (Batch 2 1 2 0) [] in
  let counts := if decide (m = 3) then [1] else seqZ 1 16 in
  (0 ∉ counts)
  ∧ (if decide (m = 1 ∧ (1 = 0 ∨ (2 = INT_MIN ∧ 1 = -1)))
    then run = Undefined
    else if decide (m = 1 ∧ Z.rem 2 1 ≠ 0)
    then ∃ w, run = Exit 1 w
              ∧ out w = [Endl; Text divisibility_error; Endl]
              ∧ calls w = []
    else if decide (2 < 0)
    then ∃ w, run = Exit 0 w
              ∧ out w = [Endl; What length_error; Endl] ∧ calls w = []
    else if enough_memory sample_runtime 2
    then ∃ w rows,
           run = Exit 0 w
           ∧ rows.*1 = counts
           ∧ out w = Endl :: report_header
                       ++ (rows ≫= row_items (sub (wtime sample_runtime 1)
                                                 (wtime sample_runtime 0)))
           ∧ calls w = clean_call 2 (selected m) <$> counts
    else ∃ w, run = Exit 0 w
              ∧ out w = [Endl; What bad_alloc; Endl] ∧ calls w = []).
Proof. apply (batch_nonpositive_threads sample_runtime 0 2 1 2 0 []). lia. Defined.

(** The claim as it was written fails: with the thread count -3 the run is
    not an error.  [main] returns 0, the status of a successful run, after
    sixteen ordinary runs of the standard strategy with 1, ..., 16 threads,
    and prints the table of results, with no diagnostic. *)
Lemma batch_nonpositive_threads_counterexample :
  ∃ w rows,
    main sample_runtime 0 (Batch 2 1 2 (-3)) [] = Exit 0 w
    ∧ threads_of <$> calls w = seqZ 1 16
    ∧ strategy_of <$> calls w = replicate 16 Standard
    ∧ out w = Endl :: report_header
                ++ (rows ≫= row_items (sub (wtime sample_runtime 1)
                                          (wtime sample_runtime 0))).
Proof.
  destruct (main_full_analysis sample_runtime 0 2 1 2 (-3) [])
    as (w & r1 & rs & Hmain & _ & _ & Ho & Hc);
    [lia|lia|reflexivity|by intros [=]|].
  exists w, ((1, r1) :: rs). split; [done|].
  rewrite Hc, Ho. split; [by vm_compute|]. split; [by vm_compute|].
  by rewrite bind_cons.
Qed.

(** C6, amended: in every table produced by the thread sweep, the row of
    thread count 1 is the first one and its time is the baseline; whenever
    that time is a finite non-zero double, the speedup and the efficiency
    of the row are both 1.0.  (The sweep is the branch [main] takes in
    batch mode for a thread count <= 0.) *)
Theorem baseline_row_of_sweep E fuel N NEIB method specificThreads input :
  specificThreads ≤ 0 → 0 ≤ N → enough_memory E N = true →
  (to_short method = 1 → NEIB ≠ 0 ∧ Z.rem N NEIB = 0) →
  let t1 := sub (wtime E 1) (wtime E 0) in
  ∃ w r1 rest,
    main E fuel (Batch N NEIB method specificThreads) input = Exit 0 w
    ∧ timestamp r1 = t1
    ∧ out w = Endl :: report_header ++ row_items t1 (1, r1) ++ rest
    ∧ (is_finite_nonzero t1 = true →
       speedup t1 (1, r1) = one ∧ efficiency t1 (1, r1) = one).
Proof.
  intros Hthr HN Hmem Hvalid t1.
  destruct (main_full_analysis E fuel N NEIB method specificThreads input
              Hthr HN Hmem Hvalid) as (w & r1 & rs & Hmain & Hr1 & _ & Ho & _).
  exists w, r1, (rs ≫= row_items t1). split; [done|]. split; [done|].
  split; [done|]. intros Hfin.
  assert (Hs : speedup t1 (1, r1) = one).
  { unfold speedup. cbn [snd]. rewrite Hr1. fold t1.
    destruct t1; try done. apply div_self. }
  split; [done|]. unfold efficiency. rewrite Hs. by vm_compute.
Qed.

Lemma baseline_row_of_sweep_witness :
  let t1 := sub (wtime sample_runtime 1) (wtime sample_runtime 0) in
  is_finite_nonzero t1 = true ∧
  ∃ w r1 rest,
    main sample_runtime 0 (Batch 2 1 2 0) [] = Exit 0 w
    ∧ timestamp r1 = t1
    ∧ out w = Endl :: report_header ++ row_items t1 (1, r1) ++ rest
    ∧ (is_finite_nonzero t1 = true →
       speedup t1 (1, r1) = one ∧ efficiency t1 (1, r1) = one).
Proof.
  split; [reflexivity|].
  apply (baseline_row_of_sweep sample_runtime 0 2 1 2 0 []);
    [lia | lia | reflexivity | intros H; vm_compute in H; lia].
Defined.

(** C6 as stated fails: when the two clock readings of the one-thread run
    coincide, its elapsed time is 0 and the row of thread count 1 shows
    NaN for the speedup and for the efficiency. *)
Lemma baseline_row_of_sweep_counterexample :
  match main coarse_runtime 0 (Batch 1 1 2 0) [] with
  | Exit 0 w =>
      take 9 (drop (S (length report_header)) (out w))
      = [Text "   "; Num 1; Text (tab +:+ tab); Dbl 6 zero;
         Text (tab +:+ tab); Dbl 2 S754_nan;
         Text (tab +:+ tab); Dbl 2 S754_nan; Endl]
  | _ => False
  end.
Proof. vm_compute. reflexivity. Qed.

(** C3, amended: the report has no guard against a zero elapsed time.  It
    prints, for every entry, the thread count, the time, the IEEE quotient
    baseline / time and that quotient divided by the thread count; for an
    entry whose elapsed time is 0 both quotients are an infinity or a NaN,
    and they are written as such. *)
Theorem report_has_no_zero_guard (sequentialTime : double)
    (results : list (Z * Result)) (w : world) :
  out (report sequentialTime results w)
  = out w ++ report_header ++ (results ≫= row_items sequentialTime)
  ∧ ∀ result,
      result ∈ results → is_zero (timestamp result.2) = true →
      is_inf_or_nan (speedup sequentialTime result) = true
      ∧ is_inf_or_nan (efficiency sequentialTime result) = true
      ∧ Dbl 2 (speedup sequentialTime result)
          ∈ out (report sequentialTime results w)
      ∧ Dbl 2 (efficiency sequentialTime result)
          ∈ out (report sequentialTime results w).
Proof.
  split; [apply report_out|]. intros result Hin Hz.
  assert (Hs : is_inf_or_nan (speedup sequentialTime result) = true)
    by by apply div_by_zero.
  split; [done|]. split; [by apply div_of_inf_or_nan|].
  rewrite report_out.
  split; apply elem_of_app; right; apply elem_of_app; right;
    apply list_elem_of_bind; exists result; (split; [|done]);
    unfold row_items; set_solver.
Qed.

Lemma report_has_no_zero_guard_witness :
  let result := (1, {| timestamp := zero; threads := 1 |}) in
  is_inf_or_nan (speedup one result) = true
  ∧ is_inf_or_nan (efficiency one result) = true
  ∧ Dbl 2 (speedup one result) ∈ out (report one [result] (initial []))
  ∧ Dbl 2 (efficiency one result) ∈ out (report one [result] (initial [])).
Proof.
  apply (proj2 (report_has_no_zero_guard one
                  [(1, {| timestamp := zero; threads := 1 |})] (initial []))
           (1, {| timestamp := zero; threads := 1 |}));
    [left | reflexivity].
Defined.

(** C3 as stated fails: for a synthetic entry with elapsed time 0 and the
    baseline 1.0, the rendered row carries +infinity for the speedup and
    for the efficiency, with no marker in their place. *)
Lemma report_has_no_zero_guard_counterexample :
  out (report one [(2, {| timestamp := zero; threads := 2 |})] (initial []))
  = report_header
    ++ [Text "   "; Num 2; Text (tab +:+ tab); Dbl 6 zero;
        Text (tab +:+ tab); Dbl 2 (S754_infinity false);
        Text (tab +:+ tab); Dbl 2 (S754_infinity false); Endl]
  ∧ existsb shows_inf_or_nan
      (out (report one [(2, {| timestamp := zero; threads := 2 |})]
              (initial []))) = true.
Proof. split; vm_compute; reflexivity. Qed.

(** * The frame of the strategies *)

Lemma lift_frame (f : store → option store) c :
  (∀ m m' x, f m = Some m' → x ≠ c → m' !! x = m !! x) →
  ∀ w w' x, lift f w = Some w' → x ≠ c → mem w' !! x = mem w !! x.
Proof.
  intros Hf w w' x H Hx. unfold lift in H.
  destruct (f (mem w)) as [m|] eqn:Hm; [|done]. injection H as <-.
  by apply Hf.
Qed.

Lemma for_world_frame {A} (body : A → world → option world) c :
  (∀ i w w' x, body i w = Some w' → x ≠ c → mem w' !! x = mem w !! x) →
  ∀ l w w' x, for_ l body w = Some w' → x ≠ c → mem w' !! x = mem w !! x.
Proof.
  intros Hbody l. induction l as [|i l IH]; intros w w' x H Hx; simpl in H.
  - by injection H as <-.
  - destruct (body i w) as [w1|] eqn:H1; simpl in H; [|done].
    rewrite (IH _ _ _ H Hx). by apply (Hbody i).
Qed.

Lemma parallel_for_frame E a b c n iters work w w' x :
  parallel_for E n iters work (mac a b c) w = Some w' → x ≠ c →
  mem w' !! x = mem w !! x.
Proof.
  unfold parallel_for. case_decide as Hn; [done|]. intros H Hx.
  apply (lift_frame _ c) with (x := x) in H; [done| |done].
  intros m m' y Hfor Hy. eapply for_frame; [|exact Hfor|exact Hy].
  intros. by eapply mac_frame.
Qed.

Lemma blocked_frame E a b c N NEIB n w r w' x :
  blockedMatrixMultiplication E a b c N NEIB n w = Some (r, w') → x ≠ c →
  mem w' !! x = mem w !! x.
Proof.
  unfold blockedMatrixMultiplication, omp_get_wtime. intros H Hx.
  destruct (cquot N NEIB) as [NB|]; [|done]. cbn [mbind option_bind] in H.
  destruct (for_ _ _ _) as [w1|] eqn:Hfor; [|done]. injection H as _ <-.
  cbn [mem next_tick].
  apply (for_world_frame _ c) with (x := x) in Hfor; [done| |done].
  intros p w2 w3 y Hp Hy. by eapply parallel_for_frame.
Qed.

Lemma standard_frame E a b c N n w r w' x :
  standardMatrixMultiplication E a b c N n w = Some (r, w') → x ≠ c →
  mem w' !! x = mem w !! x.
Proof.
  unfold standardMatrixMultiplication, omp_get_wtime. intros H Hx.
  destruct (parallel_for _ _ _ _ _ _) as [w1|] eqn:Hpar; [|done].
  injection H as _ <-. cbn [mem next_tick].
  by apply parallel_for_frame with (x := x) in Hpar.
Qed.

Lemma sequential_frame E a b c N w r w' x :
  sequentialMatrixMultiplication E a b c N w = Some (r, w') → x ≠ c →
  mem w' !! x = mem w !! x.
Proof.
  unfold sequentialMatrixMultiplication, omp_get_wtime. intros H Hx.
  destruct (for_ _ _ _) as [w1|] eqn:Hfor; [|done]. injection H as _ <-.
  cbn [mem next_tick].
  apply (for_world_frame _ c) with (x := x) in Hfor; [done| |done].
  intros i w2 w3 y Hi Hy.
  apply (for_world_frame _ c) with (x := y) in Hi; [done| |done].
  intros j w4 w5 z Hj Hz.
  apply (for_world_frame _ c) with (x := z) in Hj; [done| |done].
  intros k w6 w7 u Hk Hu.
  apply (lift_frame _ c) with (x := u) in Hk; [done| |done].
  intros. by eapply mac_frame.
Qed.

(** C8: every strategy leaves the two input matrices unchanged.  The
    output matrix is an object distinct from both inputs, as the three
    vectors declared in [main] are.  Whatever the three matrices hold and
    whatever the schedule, a call that returns leaves the store as it was
    at [a] and at [b]; and on N×N matrices the three calls do return, with
    [a] and [b] still holding what they held. *)
Theorem strategies_leave_inputs_unchanged E a b c N NEIB n w :
  c ≠ a → c ≠ b →
  (∀ r w',
     blockedMatrixMultiplication E a b c N NEIB n w = Some (r, w')
     ∨ standardMatrixMultiplication E a b c N n w = Some (r, w')
     ∨ sequentialMatrixMultiplication E a b c N w = Some (r, w') →
     mem w' !! a = mem w !! a ∧ mem w' !! b = mem w !! b)
  ∧ (∀ A B C0,
       square N A → square N B → square N C0 →
       mem w !! a = Some A → mem w !! b = Some B → mem w !! c = Some C0 →
       0 ≤ N → 0 < NEIB → Z.rem N NEIB = 0 → 0 < n →
       ∃ r1 w1 r2 w2 r3 w3,
         blockedMatrixMultiplication E a b c N NEIB n w = Some (r1, w1)
         ∧ standardMatrixMultiplication E a b c N n w = Some (r2, w2)
         ∧ sequentialMatrixMultiplication E a b c N w = Some (r3, w3)
         ∧ mem w1 !! a = Some A ∧ mem w1 !! b = Some B
         ∧ mem w2 !! a = Some A ∧ mem w2 !! b = Some B
         ∧ mem w3 !! a = Some A ∧ mem w3 !! b = Some B).
Proof.
  intros Hca Hcb. split.
  - intros r w' [H|[H|H]].
    + split; eapply blocked_frame; eauto.
    + split; eapply standard_frame; eauto.
    + split; eapply sequential_frame; eauto.
  - intros A B C0 HA HB HC Ha Hb Hc HN HNEIB Hrem Hn.
    eexists _, _, _, _, _, _.
    split; [by apply (blocked_spec E a b c N A B C0)|].
    split; [by apply (standard_spec E a b c N A B C0)|].
    split; [by apply (sequential_spec E a b c N A B C0)|].
    cbn [mem advance log_call]. rewrite !lookup_insert_ne by done. done.
Qed.

Lemma strategies_leave_inputs_unchanged_witness :
  let w := world_of (pattern 2) (pattern 2) (zeros 2) in
  ∃ r1 w1 r2 w2 r3 w3,
    blockedMatrixMultiplication sample_runtime "a" "b" "c" 2 1 2 w
    = Some (r1, w1)
    ∧ standardMatrixMultiplication sample_runtime "a" "b" "c" 2 2 w
      = Some (r2, w2)
    ∧ sequentialMatrixMultiplication sample_runtime "a" "b" "c" 2 w
      = Some (r3, w3)
    ∧ mem w1 !! "a" = Some (pattern 2) ∧ mem w1 !! "b" = Some (pattern 2)
    ∧ mem w2 !! "a" = Some (pattern 2) ∧ mem w2 !! "b" = Some (pattern 2)
    ∧ mem w3 !! "a" = Some (pattern 2) ∧ mem w3 !! "b" = Some (pattern 2).
Proof.
  intros w.
  apply (proj2 (strategies_leave_inputs_unchanged sample_runtime
                  "a" "b" "c" 2 1 2 w ltac:(by vm_compute) ltac:(by vm_compute))
           (pattern 2) (pattern 2) (zeros 2));
    try (by vm_compute); try lia; by apply squareb_spec.
Defined.

(** * The units of work of a blocked region *)

Lemma elem_of_block_work NB NEIB p q i j k :
  (i, j, k) ∈ block_work NB NEIB p q ↔
  ∃ r, 0 ≤ r < NB ∧ p * NEIB ≤ i < p * NEIB + NEIB
       ∧ q * NEIB ≤ j < q * NEIB + NEIB ∧ r * NEIB ≤ k < r * NEIB + NEIB.
Proof.
  unfold block_work. rewrite list_elem_of_bind.
  setoid_rewrite list_elem_of_bind. setoid_rewrite list_elem_of_bind.
  setoid_rewrite list_elem_of_bind. setoid_rewrite list_elem_of_singleton.
  setoid_rewrite elem_of_seqZ. split.
  - intros (r & (i' & (j' & (k' & [= -> -> ->] & Hk) & Hj) & Hi) & Hr).
    exists r. lia.
  - intros (r & Hr & Hi & Hj & Hk). exists r. split; [|lia].
    exists i. split; [|lia]. exists j. split; [|lia]. exists k. split; [done|lia].
Qed.

Lemma elem_of_share {A} T own iters (work : Z → list A) t x :
  x ∈ share T own iters work t ↔
  ∃ q, q ∈ iters ∧ (own q `mod` T)%nat = t ∧ x ∈ work q.
Proof.
  unfold share. rewrite list_elem_of_bind. setoid_rewrite list_elem_of_filter.
  split.
  - intros (q & Hx & Hown & Hq). by exists q.
  - intros (q & Hq & Hown & Hx). by exists q.
Qed.

Lemma concat_fmap_bind {A B} (f : A → list B) l : concat (f <$> l) = l ≫= f.
Proof. induction l as [|x l IH]; [done|]. by rewrite fmap_cons, bind_cons, <- IH. Qed.

Lemma bind_app_perm {A B} (f g : A → list B) l :
  l ≫= (λ x, f x ++ g x) ≡ₚ (l ≫= f) ++ (l ≫= g).
Proof.
  induction l as [|x l IH]; [done|]. rewrite !bind_cons, IH.
  rewrite <- !app_assoc. f_equiv. rewrite !app_assoc. f_equiv.
  apply Permutation_app_comm.
Qed.

(** The shares of a team are a partition of the steps of the loop. *)
Lemma team_concat_perm {A} T own iters (work : Z → list A) :
  (0 < T)%nat → concat (team T own iters work) ≡ₚ iters ≫= work.
Proof.
  intros HT. unfold team. rewrite concat_fmap_bind.
  induction iters as [|q iters IH].
  - apply Permutation_nil_r. by rewrite bind_all_nil.
  - rewrite bind_cons, <- IH.
    rewrite (bind_ext_in _ _
      (λ t, (if decide ((own q `mod` T)%nat = t) then work q else [])
            ++ share T own iters work t)).
    + rewrite bind_app_perm. f_equiv.
      rewrite (bind_pick _ (own q `mod` T)%nat).
      * by rewrite decide_True.
      * apply NoDup_seq.
      * apply elem_of_seq. pose proof (Nat.mod_upper_bound (own q) T). lia.
      * intros t _ Hne. by rewrite decide_False.
    + intros t _. unfold share. rewrite filter_cons.
      case_decide; [by rewrite bind_cons|done].
Qed.

(** A parallel region of the blocked strategy performs the steps of its
    team. *)
Lemma parallel_for_steps E a b c NB NEIB nThreads p w :
  0 < nThreads →
  parallel_for E nThreads (seqZ 0 NB) (block_work NB NEIB p) (mac a b c) w
  = m ← for_ (region_steps E nThreads NB NEIB (regions w) p) (mac a b c)
           (mem w);
    Some (set_mem m (next_region w)).
Proof.
  intros HT. unfold parallel_for. by rewrite decide_False by lia.
Qed.

(** The loop over the block rows performs, region after region, the steps
    of the teams. *)
Lemma blocked_regions_run E a b c NB NEIB nThreads :
  0 < nThreads →
  ∀ ps w,
  for_ ps (λ p, parallel_for E nThreads (seqZ 0 NB) (block_work NB NEIB p)
                  (mac a b c)) w
  = m ← for_ (concat (imap (λ k p, region_steps E nThreads NB NEIB
                                     (regions w + k) p) ps))
           (mac a b c) (mem w);
    Some (advance (length ps) 0 m w).
Proof.
  intros HT ps. induction ps as [|p ps IH]; intros w.
  - simpl. by rewrite advance_id.
  - cbn [for_ imap concat]. rewrite for_app.
    rewrite parallel_for_steps by done. rewrite Nat.add_0_r.
    destruct (for_ (region_steps _ _ _ _ _ _) (mac a b c) (mem w)) as [m1|];
      [|done].
    cbn [mbind option_bind]. rewrite IH. cbn [mem set_mem regions next_region].
    rewrite (imap_ext _ ((λ k p0, region_steps E nThreads NB NEIB
                                    (regions w + k) p0) ∘ S));
      [|intros k p0 _; simpl; f_equal; lia].
    destruct (for_ _ (mac a b c) m1) as [m2|]; [|done].
    cbn [mbind option_bind]. f_equal. unfold advance. simpl. f_equal. lia.
Qed.

(** C7: the blocked strategy enters one parallel region per block row [p];
    its effect on the store is that of the steps of these regions, each
    performed by the statement [c[i][j] = c[i][j] + a[i][k] * b[k][j]],
    which writes the cell [(i, j)] of [c] and nothing else.  In the region
    of block row [p] the unit of work handed to a thread is an iteration
    [q] of the loop under the pragma: every step of a thread lies in block
    row [p] and in the block column of an iteration [q] this thread owns,
    so two distinct iterations, and two distinct threads, never write a
    common cell; and the steps of the region are exactly those of all the
    (q, r) combinations. *)
Theorem blocked_units_write_disjoint_cells E a b c N NEIB nThreads A B C0 w :
  c ≠ a → c ≠ b → 0 ≤ N → 0 < NEIB → Z.rem N NEIB = 0 → 0 < nThreads →
  square N A → square N B → square N C0 →
  mem w !! a = Some A → mem w !! b = Some B → mem w !! c = Some C0 →
  let NB := N ÷ NEIB in
  let T := Z.to_nat nThreads in
  (∃ r w',
     blockedMatrixMultiplication E a b c N NEIB nThreads w = Some (r, w')
     ∧ for_ (concat (imap (λ k p, region_steps E nThreads NB NEIB
                                    (regions w + k) p) (seqZ 0 NB)))
         (mac a b c) (mem w)
       = Some (mem w'))
  ∧ (∀ (m : store) C i j k,
       m !! a = Some A → m !! b = Some B → m !! c = Some C → square N C →
       in_range N (i, j, k) →
       ∃ C', mac a b c (i, j, k) m = Some (<[c := C']> m)
             ∧ square N C'
             ∧ ∀ i' j', entry C' i' j'
                 = if decide (i' = i ∧ j' = j)
                   then add (entry C i j) (mul (entry A i k) (entry B k j))
                   else entry C i' j')
  ∧ (∀ p, 0 ≤ p < NB →
       (∀ own t i j k,
          (i, j, k) ∈ share T own (seqZ 0 NB) (block_work NB NEIB p) t →
          in_range N (i, j, k)
          ∧ ∃ q, 0 ≤ q < NB ∧ (own q `mod` T)%nat = t
                 ∧ p * NEIB ≤ i < p * NEIB + NEIB
                 ∧ q * NEIB ≤ j < q * NEIB + NEIB)
       ∧ (∀ q q' i j k k',
            (i, j, k) ∈ block_work NB NEIB p q →
            (i, j, k') ∈ block_work NB NEIB p q' → q = q')
       ∧ (∀ own t t' i j k k',
            (i, j, k) ∈ share T own (seqZ 0 NB) (block_work NB NEIB p) t →
            (i, j, k') ∈ share T own (seqZ 0 NB) (block_work NB NEIB p) t' →
            t = t')
       ∧ (∀ r, region_steps E nThreads NB NEIB r p
               ≡ₚ (q ← seqZ 0 NB; r ← seqZ 0 NB;
                   i ← seqZ (p * NEIB) NEIB; j ← seqZ (q * NEIB) NEIB;
                   k ← seqZ (r * NEIB) NEIB; [(i, j, k)]))).
Proof.
  intros Hca Hcb HN HNEIB Hrem HT HA HB HC Ha Hb Hc NB T.
  assert (HNB : 0 ≤ NB) by (apply Z.quot_pos; lia).
  assert (HNeq : N = NB * NEIB).
  { pose proof (Z.quot_rem' N NEIB). subst NB. lia. }
  assert (Hdisj : ∀ p q q' i j k k',
            (i, j, k) ∈ block_work NB NEIB p q →
            (i, j, k') ∈ block_work NB NEIB p q' → q = q').
  { intros p q q' i j k k' (r & _ & _ & Hj & _)%elem_of_block_work
                           (r' & _ & _ & Hj' & _)%elem_of_block_work.
    nia. }
  split; [|split].
  - pose proof (blocked_spec E a b c N A B C0 w Hca Hcb HN HA HB HC Ha Hb Hc
                  NEIB nThreads HNEIB Hrem HT) as Hspec.
    eexists _, _. split; [exact Hspec|].
    revert Hspec. unfold blockedMatrixMultiplication, omp_get_wtime, cquot.
    rewrite !decide_False by lia. cbn [mbind option_bind]. fold NB.
    rewrite (blocked_regions_run E a b c NB NEIB nThreads HT).
    cbn [regions mem next_tick log_call].
    destruct (for_ _ (mac a b c) (mem w)) as [m|]; [|done].
    cbn [mbind option_bind]. intros [= Hm]. by rewrite Hm.
  - intros m C i j k Hma Hmb Hmc HmC Hin.
    destruct (mac_step a b c N A B HA HB m C i j k Hma Hmb Hmc HmC Hin)
      as (C' & Hmac & HC' & Hent).
    exists C'. split; [done|]. split; [done|].
    intros i' j'. rewrite Hent. unfold proj.
    case_decide as Hij.
    + destruct Hij as [-> ->]. by rewrite decide_True.
    + rewrite decide_False; [done|]. intros [-> ->]. tauto.
  - intros p Hp. split; [|split; [|split]].
    + intros own t i j k (q & Hq%elem_of_seqZ & Hown & Hx)%elem_of_share.
      apply elem_of_block_work in Hx as (r & Hr & Hi & Hj & Hk).
      split; [unfold in_range; nia|]. exists q. split; [lia|]. done.
    + apply Hdisj.
    + intros own t t' i j k k' (q & _ & <- & Hq)%elem_of_share
                               (q' & _ & <- & Hq')%elem_of_share.
      by rewrite (Hdisj _ _ _ _ _ _ _ Hq Hq').
    + intros r. unfold region_steps, interleave.
      rewrite interleave_from_perm by done.
      rewrite team_concat_perm by lia. done.
Qed.

Lemma blocked_units_write_disjoint_cells_witness :
  let E := sample_runtime in
  let A := pattern 4 in
  let w := world_of A A (zeros 4) in
  let N := 4 in
  let NEIB := 2 in
  let nThreads := 2 in
  let NB := N ÷ NEIB in
  let T := Z.to_nat nThreads in
  (∃ r w',
     blockedMatrixMultiplication E "a" "b" "c" N NEIB nThreads w = Some (r, w')
     ∧ for_ (concat (imap (λ k p, region_steps E nThreads NB NEIB
                                    (regions w + k) p) (seqZ 0 NB)))
         (mac "a" "b" "c") (mem w)
       = Some (mem w'))
  ∧ (∀ (m : store) C i j k,
       m !! "a" = Some A → m !! "b" = Some A → m !! "c" = Some C →
       square N C → in_range N (i, j, k) →
       ∃ C', mac "a" "b" "c" (i, j, k) m = Some (<["c" := C']> m)
             ∧ square N C'
             ∧ ∀ i' j', entry C' i' j'
                 = if decide (i' = i ∧ j' = j)
                   then add (entry C i j) (mul (entry A i k) (entry A k j))
                   else entry C i' j')
  ∧ (∀ p, 0 ≤ p < NB →
       (∀ own t i j k,
          (i, j, k) ∈ share T own (seqZ 0 NB) (block_work NB NEIB p) t →
          in_range N (i, j, k)
          ∧ ∃ q, 0 ≤ q < NB ∧ (own q `mod` T)%nat = t
                 ∧ p * NEIB ≤ i < p * NEIB + NEIB
                 ∧ q * NEIB ≤ j < q * NEIB + NEIB)
       ∧ (∀ q q' i j k k',
            (i, j, k) ∈ block_work NB NEIB p q →
            (i, j, k') ∈ block_work NB NEIB p q' → q = q')
       ∧ (∀ own t t' i j k k',
            (i, j, k) ∈ share T own (seqZ 0 NB) (block_work NB NEIB p) t →
            (i, j, k') ∈ share T own (seqZ 0 NB) (block_work NB NEIB p) t' →
            t = t')
       ∧ (∀ r, region_steps E nThreads NB NEIB r p
               ≡ₚ (q ← seqZ 0 NB; r ← seqZ 0 NB;
                   i ← seqZ (p * NEIB) NEIB; j ← seqZ (q * NEIB) NEIB;
                   k ← seqZ (r * NEIB) NEIB; [(i, j, k)]))).
Proof.
  intros E A w N NEIB nThreads.
  apply (blocked_units_write_disjoint_cells E "a" "b" "c" N NEIB nThreads
           A A (zeros 4) w);
    try (by vm_compute); try (subst N NEIB nThreads; lia);
    by apply squareb_spec.
Defined.

(** C10, amended: the three strategies accumulate into the output matrix
    rather than assign.  For N×N matrices A, B and any initial N×N output
    C0 (for the blocked strategy, a positive block size that divides N; for
    the parallel ones, a positive thread count and any schedule), the call
    returns and leaves in every cell the value obtained from C0[i][j] by
    adding A[i][k]*B[k][j] for k = 0, 1, ..., N-1 in this order; A and B
    are as before.  With C0 all-zero this is the dense product. *)
Theorem strategies_accumulate E1 E2 E3 a b c N NEIB n1 n2 A B C0 w :
  c ≠ a → c ≠ b → 0 ≤ N → 0 < NEIB → Z.rem N NEIB = 0 → 0 < n1 → 0 < n2 →
  square N A → square N B → square N C0 →
  mem w !! a = Some A → mem w !! b = Some B → mem w !! c = Some C0 →
  ∃ r1 w1 r2 w2 r3 w3,
    blockedMatrixMultiplication E1 a b c N NEIB n1 w = Some (r1, w1)
    ∧ standardMatrixMultiplication E2 a b c N n2 w = Some (r2, w2)
    ∧ sequentialMatrixMultiplication E3 a b c N w = Some (r3, w3)
    ∧ mem w1 !! c = Some (accumulated N A B C0)
    ∧ mem w2 !! c = Some (accumulated N A B C0)
    ∧ mem w3 !! c = Some (accumulated N A B C0)
    ∧ (∀ i j, 0 ≤ i < N → 0 ≤ j < N →
         entry (accumulated N A B C0) i j
         = foldl (λ acc k, add acc (mul (entry A i k) (entry B k j)))
             (entry C0 i j) (seqZ 0 N))
    ∧ accumulated N A B (zeros N) = dense_product N A B.
Proof.
  intros Hca Hcb HN HNEIB Hrem Hn1 Hn2 HA HB HC Ha Hb Hc.
  eexists _, _, _, _, _, _.
  split; [by apply (blocked_spec E1 a b c N A B C0)|].
  split; [by apply (standard_spec E2 a b c N A B C0)|].
  split; [by apply (sequential_spec E3 a b c N A B C0)|].
  cbn [mem advance]. rewrite !lookup_insert_eq.
  split; [done|]. split; [done|]. split; [done|]. split.
  - intros i j Hi Hj. unfold accumulated. by rewrite entry_tabulate.
  - by apply accumulated_zeros.
Qed.

Lemma strategies_accumulate_witness :
  let w2 := world_of ones2 ones2 big2 in
  ∃ r1 w1 r2 w2' r3 w3,
    blockedMatrixMultiplication sample_runtime "a" "b" "c" 2 1 3 w2
    = Some (r1, w1)
    ∧ standardMatrixMultiplication sample_runtime "a" "b" "c" 2 2 w2
      = Some (r2, w2')
    ∧ sequentialMatrixMultiplication sample_runtime "a" "b" "c" 2 w2
      = Some (r3, w3)
    ∧ mem w1 !! "c" = Some (accumulated 2 ones2 ones2 big2)
    ∧ mem w2' !! "c" = Some (accumulated 2 ones2 ones2 big2)
    ∧ mem w3 !! "c" = Some (accumulated 2 ones2 ones2 big2)
    ∧ (∀ i j, 0 ≤ i < 2 → 0 ≤ j < 2 →
         entry (accumulated 2 ones2 ones2 big2) i j
         = foldl (λ acc k, add acc (mul (entry ones2 i k) (entry ones2 k j)))
             (entry big2 i j) (seqZ 0 2))
    ∧ accumulated 2 ones2 ones2 (zeros 2) = dense_product 2 ones2 ones2.
Proof.
  intros w2.
  apply (strategies_accumulate sample_runtime sample_runtime sample_runtime
           "a" "b" "c" 2 1 3 2 ones2 ones2 big2 w2);
    try (by vm_compute); try lia; by apply squareb_spec.
Defined.

(** C10 as stated fails in double arithmetic: with every cell of C0 equal
    to 2^53 and A, B the 2×2 matrices of ones, each strategy leaves 2^53 in
    every cell (2^53 + 1 rounds to 2^53, twice), whereas C0[i][j] plus the
    sum of the products is 2^53 + 2. *)
Lemma strategies_accumulate_counterexample :
  let w := world_of ones2 ones2 big2 in
  (∃ r w', sequentialMatrixMultiplication sample_runtime "a" "b" "c" 2 w
           = Some (r, w')
           ∧ mem w' !! "c" = Some big2)
  ∧ (∃ r w', standardMatrixMultiplication sample_runtime "a" "b" "c" 2 2 w
             = Some (r, w')
             ∧ mem w' !! "c" = Some big2)
  ∧ (∃ r w', blockedMatrixMultiplication sample_runtime "a" "b" "c" 2 1 2 w
             = Some (r, w')
             ∧ mem w' !! "c" = Some big2)
  ∧ entry big2 0 0 = of_int 9007199254740992
  ∧ entry (initial_plus_sum 2 ones2 ones2 big2) 0 0 = of_int 9007199254740994
  ∧ big2 ≠ initial_plus_sum 2 ones2 ones2 big2.
Proof.
  intros w.
  split; [eexists _, _; split; [vm_compute; reflexivity|vm_compute; reflexivity]|].
  split; [eexists _, _; split; [vm_compute; reflexivity|vm_compute; reflexivity]|].
  split; [eexists _, _; split; [vm_compute; reflexivity|vm_compute; reflexivity]|].
  split; [vm_compute; reflexivity|]. split; [vm_compute; reflexivity|].
  vm_compute. discriminate.
Qed.

(** C1, amended: for every N > 0, N×N matrices A and B, every positive
    block size NEIB with N % NEIB == 0, every positive thread count and
    every schedule, the blocked, the flat-parallel and the sequential
    strategy, each applied to a zeroed output matrix, return and leave the
    same output grid: the dense product, whose cell (i, j) is the sum over
    k of A[i][k]*B[k][j]. *)
Theorem strategies_agree_on_zeroed_output E1 E2 E3 a b c N NEIB n1 n2 A B w :
  c ≠ a → c ≠ b → 0 < N → 0 < NEIB → Z.rem N NEIB = 0 → 0 < n1 → 0 < n2 →
  square N A → square N B →
  mem w !! a = Some A → mem w !! b = Some B → mem w !! c = Some (zeros N) →
  ∃ r1 w1 r2 w2 r3 w3,
    blockedMatrixMultiplication E1 a b c N NEIB n1 w = Some (r1, w1)
    ∧ standardMatrixMultiplication E2 a b c N n2 w = Some (r2, w2)
    ∧ sequentialMatrixMultiplication E3 a b c N w = Some (r3, w3)
    ∧ mem w1 !! c = Some (dense_product N A B)
    ∧ mem w2 !! c = Some (dense_product N A B)
    ∧ mem w3 !! c = Some (dense_product N A B)
    ∧ (∀ i j, 0 ≤ i < N → 0 ≤ j < N →
         entry (dense_product N A B) i j
         = sum_upto (Z.to_nat N) (λ k, mul (entry A i k) (entry B k j))).
Proof.
  intros Hca Hcb HN HNEIB Hrem Hn1 Hn2 HA HB Ha Hb Hc.
  assert (HN0 : 0 ≤ N) by lia.
  pose proof (square_zeros N) as HC.
  eexists _, _, _, _, _, _.
  split; [by apply (blocked_spec E1 a b c N A B (zeros N))|].
  split; [by apply (standard_spec E2 a b c N A B (zeros N))|].
  split; [by apply (sequential_spec E3 a b c N A B (zeros N))|].
  cbn [mem advance]. rewrite !lookup_insert_eq, accumulated_zeros by done.
  split; [done|]. split; [done|]. split; [done|].
  intros i j Hi Hj. unfold dense_product. by rewrite entry_tabulate.
Qed.

(** The scenario of the specification: N=4, NEIB=2 and the pattern
    A[i][j] = B[i][j] = i+j+1. *)
Lemma strategies_agree_on_zeroed_output_witness :
  let w := world_of (pattern 4) (pattern 4) (zeros 4) in
  ∃ r1 w1 r2 w2 r3 w3,
    blockedMatrixMultiplication sample_runtime "a" "b" "c" 4 2 3 w
    = Some (r1, w1)
    ∧ standardMatrixMultiplication sample_runtime "a" "b" "c" 4 5 w
      = Some (r2, w2)
    ∧ sequentialMatrixMultiplication sample_runtime "a" "b" "c" 4 w
      = Some (r3, w3)
    ∧ mem w1 !! "c" = Some (dense_product 4 (pattern 4) (pattern 4))
    ∧ mem w2 !! "c" = Some (dense_product 4 (pattern 4) (pattern 4))
    ∧ mem w3 !! "c" = Some (dense_product 4 (pattern 4) (pattern 4))
    ∧ (∀ i j, 0 ≤ i < 4 → 0 ≤ j < 4 →
         entry (dense_product 4 (pattern 4) (pattern 4)) i j
         = sum_upto (Z.to_nat 4)
             (λ k, mul (entry (pattern 4) i k) (entry (pattern 4) k j))).
Proof.
  intros w.
  apply (strategies_agree_on_zeroed_output
           sample_runtime sample_runtime sample_runtime
           "a" "b" "c" 4 2 3 5 (pattern 4) (pattern 4) w);
    try (by vm_compute); try lia; by apply squareb_spec.
Defined.

(** C1 as stated fails: the block size NEIB = -1 satisfies 2 % NEIB == 0,
    yet the blocked strategy then has no block row to visit and leaves the
    zeroed output as it is, while the sequential strategy computes the
    dense product, which is not zero. *)
Lemma strategies_agree_on_zeroed_output_counterexample :
  let w := world_of (pattern 2) (pattern 2) (zeros 2) in
  Z.rem 2 (-1) = 0
  ∧ (∃ r w', blockedMatrixMultiplication sample_runtime "a" "b" "c" 2 (-1) 3 w
             = Some (r, w')
             ∧ mem w' !! "c" = Some (zeros 2))
  ∧ (∃ r w', sequentialMatrixMultiplication sample_runtime "a" "b" "c" 2 w
             = Some (r, w')
             ∧ mem w' !! "c" = Some (dense_product 2 (pattern 2) (pattern 2)))
  ∧ zeros 2 ≠ dense_product 2 (pattern 2) (pattern 2).
Proof.
  intros w. split; [reflexivity|].
  split; [eexists _, _; split; [vm_compute; reflexivity|vm_compute; reflexivity]|].
  split; [eexists _, _; split; [vm_compute; reflexivity|vm_compute; reflexivity]|].
  vm_compute. discriminate.
Qed.

(** * The comparison routine *)

Lemma epsilon_is_1e_9 : div (of_int 1) (of_int 1000000000) = epsilon.
Proof. by vm_compute. Qed.

Lemma for_return_test {A R} (l : list A) (body : A → option (option R))
    (t : A → bool) (r : R) :
  (∀ x, x ∈ l → body x = Some (if t x then Some r else None)) →
  for_return l body = Some (if existsb t l then Some r else None).
Proof.
  induction l as [|x l IH]; intros H; [done|]. simpl.
  rewrite H by left. destruct (t x); [done|]. simpl. apply IH.
  intros. apply H. by right.
Qed.

Lemma verifyResult_eq N (c1 c2 : matrix) :
  square N c1 → square N c2 →
  verifyResult c1 c2 N
  = Some (negb (existsb (λ i, existsb (λ j,
            differ (entry c1 i j) (entry c2 i j)) (seqZ 0 N)) (seqZ 0 N))).
Proof.
  intros H1 H2. unfold verifyResult.
  rewrite (for_return_test _ _
             (λ i, existsb (λ j, differ (entry c1 i j) (entry c2 i j))
                     (seqZ 0 N)) false).
  - simpl. by destruct (existsb _ _).
  - intros i Hi%elem_of_seqZ. apply for_return_test.
    intros j Hj%elem_of_seqZ.
    rewrite (mget_square N c1), (mget_square N c2) by (done || lia).
    cbn [mbind option_bind]. by destruct (differ _ _).
Qed.

Lemma existsb_seqZ_false (t : Z → bool) lo len :
  existsb t (seqZ lo len) = false ↔ ∀ x, lo ≤ x < lo + len → t x = false.
Proof.
  rewrite <- not_true_iff_false, existsb_exists. split.
  - intros H x Hx. apply not_true_iff_false. intros Ht. apply H.
    exists x. split; [|done]. apply list_elem_of_In, elem_of_seqZ. lia.
  - intros H (x & Hx%list_elem_of_In%elem_of_seqZ & Ht).
    rewrite H in Ht by lia. done.
Qed.

Lemma differ_self d : differ d d = false.
Proof.
  unfold differ. destruct d as [[]|[]| |s m e]; try done.
  unfold sub, SFsub. rewrite Z.sub_diag. done.
Qed.

Lemma differ_nan_l d : differ S754_nan d = false.
Proof. by destruct d. Qed.

Lemma differ_nan_r d : differ d S754_nan = false.
Proof. by destruct d. Qed.

Lemma verifyResult_accepts N (c1 c2 : matrix) :
  square N c1 → square N c2 →
  (∀ i j, 0 ≤ i < N → 0 ≤ j < N →
          differ (entry c1 i j) (entry c2 i j) = false) →
  verifyResult c1 c2 N = Some true.
Proof.
  intros H1 H2 H. rewrite (verifyResult_eq N) by done. f_equal.
  rewrite negb_true_iff, existsb_seqZ_false. intros i Hi.
  rewrite existsb_seqZ_false. intros j Hj. apply H; lia.
Qed.

(** X1: [verifyResult] on two N×N matrices returns, and returns true
    exactly when no cell differs by more than epsilon. *)
Theorem verifyResult_true_iff N (c1 c2 : matrix) :
  square N c1 → square N c2 →
  ∃ b, verifyResult c1 c2 N = Some b
       ∧ (b = true ↔
          ∀ i j, 0 ≤ i < N → 0 ≤ j < N →
                 differ (entry c1 i j) (entry c2 i j) = false).
Proof.
  intros H1 H2. eexists. split; [by apply verifyResult_eq|].
  rewrite negb_true_iff, existsb_seqZ_false.
  setoid_rewrite existsb_seqZ_false.
  split; intros H i; [intros j Hi Hj|intros Hi j Hj]; apply H; lia.
Qed.

(** X2: [verifyResult] accepts any N×N matrix against itself, whatever its
    cells hold, infinities and NaNs included. *)
Theorem verifyResult_reflexive N (c : matrix) :
  square N c → verifyResult c c N = Some true.
Proof.
  intros H. apply verifyResult_accepts; [done..|].
  intros. apply differ_self.
Qed.

Lemma verifyResult_reflexive_witness :
  verifyResult (constant_matrix 3 (S754_infinity false))
    (constant_matrix 3 (S754_infinity false)) 3 = Some true.
Proof. apply (verifyResult_reflexive 3). apply square_tabulate. Defined.

(** X3: [verifyResult] cannot see a NaN: two N×N matrices of which, in
    every cell, at least one holds a NaN are reported equal. *)
Theorem verifyResult_accepts_nan N (c1 c2 : matrix) :
  square N c1 → square N c2 →
  (∀ i j, 0 ≤ i < N → 0 ≤ j < N →
          entry c1 i j = S754_nan ∨ entry c2 i j = S754_nan) →
  verifyResult c1 c2 N = Some true.
Proof.
  intros H1 H2 Hnan.
  apply verifyResult_accepts; [done..|]. intros i j Hi Hj.
  destruct (Hnan i j Hi Hj) as [->| ->];
    [apply differ_nan_l|apply differ_nan_r].
Qed.

Lemma verifyResult_accepts_nan_witness :
  verifyResult (constant_matrix 2 S754_nan) (pattern 2) 2 = Some true.
Proof.
  apply (verifyResult_accepts_nan 2); [apply square_tabulate..|].
  intros i j Hi Hj. left. unfold constant_matrix. by rewrite entry_tabulate.
Defined.

Lemma verifyResult_true_iff_witness :
  ∃ b, verifyResult (pattern 2) (zeros 2) 2 = Some b
       ∧ (b = true ↔
          ∀ i j, 0 ≤ i < 2 → 0 ≤ j < 2 →
                 differ (entry (pattern 2) i j) (entry (zeros 2) i j) = false).
Proof.
  apply (verifyResult_true_iff 2); [apply square_tabulate|apply square_zeros].
Defined.

(** X4: the outputs of two strategies pass [verifyResult]: on N×N matrices,
    from any initial output matrix, the grids left by the blocked, the
    flat-parallel and the sequential strategy are reported equal. *)
Theorem verifyResult_accepts_strategies E1 E2 E3 a b c N NEIB n1 n2 A B C0 w :
  c ≠ a → c ≠ b → 0 ≤ N → 0 < NEIB → Z.rem N NEIB = 0 → 0 < n1 → 0 < n2 →
  square N A → square N B → square N C0 →
  mem w !! a = Some A → mem w !! b = Some B → mem w !! c = Some C0 →
  ∃ r1 w1 r2 w2 r3 w3 C1 C2 C3,
    blockedMatrixMultiplication E1 a b c N NEIB n1 w = Some (r1, w1)
    ∧ standardMatrixMultiplication E2 a b c N n2 w = Some (r2, w2)
    ∧ sequentialMatrixMultiplication E3 a b c N w = Some (r3, w3)
    ∧ mem w1 !! c = Some C1 ∧ mem w2 !! c = Some C2 ∧ mem w3 !! c = Some C3
    ∧ verifyResult C1 C3 N = Some true
    ∧ verifyResult C2 C3 N = Some true
    ∧ verifyResult C1 C2 N = Some true.
Proof.
  intros Hca Hcb HN HNEIB Hrem Hn1 Hn2 HA HB HC Ha Hb Hc.
  eexists _, _, _, _, _, _, _, _, _.
  split; [by apply (blocked_spec E1 a b c N A B C0)|].
  split; [by apply (standard_spec E2 a b c N A B C0)|].
  split; [by apply (sequential_spec E3 a b c N A B C0)|].
  cbn [mem advance]. rewrite !lookup_insert_eq.
  split; [done|]. split; [done|]. split; [done|].
  split_and!; (apply verifyResult_accepts; [apply square_tabulate..|]);
    intros; apply differ_self.
Qed.

Lemma verifyResult_accepts_strategies_witness :
  let w := world_of ones2 ones2 big2 in
  ∃ r1 w1 r2 w2 r3 w3 C1 C2 C3,
    blockedMatrixMultiplication sample_runtime "a" "b" "c" 2 1 3 w
    = Some (r1, w1)
    ∧ standardMatrixMultiplication sample_runtime "a" "b" "c" 2 2 w
      = Some (r2, w2)
    ∧ sequentialMatrixMultiplication sample_runtime "a" "b" "c" 2 w
      = Some (r3, w3)
    ∧ mem w1 !! "c" = Some C1 ∧ mem w2 !! "c" = Some C2
    ∧ mem w3 !! "c" = Some C3
    ∧ verifyResult C1 C3 2 = Some true
    ∧ verifyResult C2 C3 2 = Some true
    ∧ verifyResult C1 C2 2 = Some true.
Proof.
  intros w.
  apply (verifyResult_accepts_strategies sample_runtime sample_runtime
           sample_runtime "a" "b" "c" 2 1 3 2 ones2 ones2 big2 w);
    try (by vm_compute); try lia; by apply squareb_spec.
Defined.

(** * [initializeMatrix] *)

(** X5: [initializeMatrix] on an N×N matrix, with [size] N, returns and
    overwrites every cell: with a draw in random mode, with [i + j + 1] in
    the other mode, which does not depend on the environment.  Every other
    matrix, the output and the clock are left alone. *)
Theorem initializeMatrix_fills E name N random (w : world) M :
  mem w !! name = Some M → square N M →
  ∃ w',
    initializeMatrix E name N random w = Some w'
    ∧ mem w' = <[name := initialized E (fills w) N random]> (mem w)
    ∧ square N (initialized E (fills w) N random)
    ∧ (∀ i j, 0 ≤ i < N → 0 ≤ j < N →
         entry (initialized E (fills w) N random) i j
         = if random then rng E (fills w) i j else of_int (i + j + 1))
    ∧ fills w' = S (fills w) ∧ out w' = out w ∧ ticks w' = ticks w
    ∧ calls w' = calls w.
Proof.
  intros Hm HM. unfold initializeMatrix.
  destruct (fill_all name N
              (λ i j, if random then rng E (fills w) i j else of_int (i + j + 1))
              w M Hm HM) as (M' & -> & HM' & Hent).
  cbn [mbind option_bind]. eexists. split; [done|].
  cbn [mem fills out ticks calls next_fill set_mem].
  replace M' with (initialized E (fills w) N random).
  - split; [done|]. split; [apply square_tabulate|]. split; [|done].
    intros i j Hi Hj. unfold initialized. by rewrite entry_tabulate.
  - apply (matrix_ext N); [apply square_tabulate|done|].
    intros i j Hi Hj. unfold initialized. by rewrite entry_tabulate, Hent.
Qed.

Lemma initializeMatrix_fills_witness :
  let w := world_of (zeros 3) (zeros 3) (zeros 3) in
  ∃ w',
    initializeMatrix sample_runtime "a" 3 false w = Some w'
    ∧ mem w' = <["a" := initialized sample_runtime (fills w) 3 false]> (mem w)
    ∧ square 3 (initialized sample_runtime (fills w) 3 false)
    ∧ (∀ i j, 0 ≤ i < 3 → 0 ≤ j < 3 →
         entry (initialized sample_runtime (fills w) 3 false) i j
         = if false then rng sample_runtime (fills w) i j
           else of_int (i + j + 1))
    ∧ fills w' = S (fills w) ∧ out w' = out w ∧ ticks w' = ticks w
    ∧ calls w' = calls w.
Proof.
  intros w.
  apply (initializeMatrix_fills sample_runtime "a" 3 false w (zeros 3));
    [by vm_compute | apply square_zeros].
Defined.

(** * Resetting the output matrix *)

(** X6: a reset makes a run independent of what the output matrix held:
    whatever N×N matrix is in [c], the reset loops followed by any of the
    three strategies leave the dense product in [c]. *)
Theorem reset_then_strategy_gives_product E a b c N NEIB n A B C w :
  c ≠ a → c ≠ b → 0 ≤ N → 0 < NEIB → Z.rem N NEIB = 0 → 0 < n →
  square N A → square N B → square N C →
  mem w !! a = Some A → mem w !! b = Some B → mem w !! c = Some C →
  ∃ w0 r1 w1 r2 w2 r3 w3,
    reset_result_matrix c N w = Some w0
    ∧ mem w0 = <[c := zeros N]> (mem w)
    ∧ blockedMatrixMultiplication E a b c N NEIB n w0 = Some (r1, w1)
    ∧ standardMatrixMultiplication E a b c N n w0 = Some (r2, w2)
    ∧ sequentialMatrixMultiplication E a b c N w0 = Some (r3, w3)
    ∧ mem w1 !! c = Some (dense_product N A B)
    ∧ mem w2 !! c = Some (dense_product N A B)
    ∧ mem w3 !! c = Some (dense_product N A B).
Proof.
  intros Hca Hcb HN HNEIB Hrem Hn HA HB HC Ha Hb Hc.
  pose proof (square_zeros N) as HZ.
  set (w0 := set_mem (<[c := zeros N]> (mem w)) w).
  assert (Ha0 : mem w0 !! a = Some A)
    by (subst w0; cbn [mem set_mem]; by rewrite lookup_insert_ne).
  assert (Hb0 : mem w0 !! b = Some B)
    by (subst w0; cbn [mem set_mem]; by rewrite lookup_insert_ne).
  assert (Hc0 : mem w0 !! c = Some (zeros N))
    by (subst w0; cbn [mem set_mem]; by rewrite lookup_insert_eq).
  exists w0. eexists _, _, _, _, _, _.
  split; [by apply reset_result_matrix_spec with C|].
  split; [done|].
  split; [by apply (blocked_spec E a b c N A B (zeros N))|].
  split; [by apply (standard_spec E a b c N A B (zeros N))|].
  split; [by apply (sequential_spec E a b c N A B (zeros N))|].
  cbn [mem advance]. rewrite !lookup_insert_eq, accumulated_zeros by done.
  done.
Qed.

Lemma reset_then_strategy_gives_product_witness :
  let w := world_of ones2 ones2 big2 in
  ∃ w0 r1 w1 r2 w2 r3 w3,
    reset_result_matrix "c" 2 w = Some w0
    ∧ mem w0 = <["c" := zeros 2]> (mem w)
    ∧ blockedMatrixMultiplication sample_runtime "a" "b" "c" 2 2 3 w0
      = Some (r1, w1)
    ∧ standardMatrixMultiplication sample_runtime "a" "b" "c" 2 3 w0
      = Some (r2, w2)
    ∧ sequentialMatrixMultiplication sample_runtime "a" "b" "c" 2 w0
      = Some (r3, w3)
    ∧ mem w1 !! "c" = Some (dense_product 2 ones2 ones2)
    ∧ mem w2 !! "c" = Some (dense_product 2 ones2 ones2)
    ∧ mem w3 !! "c" = Some (dense_product 2 ones2 ones2).
Proof.
  intros w.
  apply (reset_then_strategy_gives_product sample_runtime "a" "b" "c" 2 2 3
           ones2 ones2 big2 w);
    try (by vm_compute); try lia; by apply squareb_spec.
Defined.

(** * [printMatrix] *)

Lemma emit_nil w : emit [] w = w.
Proof. destruct w. unfold emit. simpl. by rewrite app_nil_r. Qed.

Lemma emit_emit l1 l2 w : emit l2 (emit l1 w) = emit (l1 ++ l2) w.
Proof. unfold emit. simpl. by rewrite app_assoc. Qed.

Lemma put_emit x w : put x w = emit [x] w.
Proof. done. Qed.

(** A loop whose turns only write. *)
Lemma for_emit {A} d (l : list A) (body : A → world → option world)
    (f : A → list item) :
  (∀ x w, x ∈ l → precision w = d → body x w = Some (emit (f x) w)) →
  ∀ w, precision w = d → for_ l body w = Some (emit (l ≫= f) w).
Proof.
  induction l as [|x l IH]; intros Hbody w Hw.
  - simpl. by rewrite emit_nil.
  - cbn [for_]. rewrite Hbody by (done || left). cbn [mbind option_bind].
    rewrite IH; [|by intros; apply Hbody; [right|]|done].
    by rewrite emit_emit, bind_cons.
Qed.

Lemma count_numbers_app l1 l2 :
  count_numbers (l1 ++ l2) = (count_numbers l1 + count_numbers l2)%nat.
Proof. unfold count_numbers. by rewrite filter_app, length_app. Qed.

Lemma count_numbers_bind {A} (l : list A) (f : A → list item) n :
  (∀ x, x ∈ l → count_numbers (f x) = n) →
  count_numbers (l ≫= f) = (length l * n)%nat.
Proof.
  induction l as [|x l IH]; intros H; [done|].
  rewrite bind_cons, count_numbers_app, H, IH; [done| |left].
  intros. apply H. by right.
Qed.

(** What [printMatrix] writes, and that it writes only. *)
Lemma printMatrix_emit name N maxDisplay (w : world) M :
  mem w !! name = Some M → square N M →
  printMatrix name N maxDisplay w
  = Some (emit (sample_rows M N maxDisplay (precision w)) w).
Proof.
  intros Hm HM. unfold printMatrix. rewrite Hm. cbn [mbind option_bind].
  rewrite (for_emit (precision w) _ _
             (λ i, [Text "   "]
                   ++ (j ← seqZ 0 (Z.min N maxDisplay);
                       [Dbl (precision w) (entry M i j); Text " "])
                   ++ (if decide (maxDisplay < N) then [Text "..."] else [])
                   ++ [Endl])); [| |done].
  - cbn [mbind option_bind]. unfold sample_rows. cbn zeta.
    case_decide; by rewrite !put_emit, ?emit_emit, <- ?app_assoc.
  - intros i w1 Hi%elem_of_seqZ Hw1.
    rewrite (for_emit (precision w) _ _
               (λ j, [Dbl (precision w) (entry M i j); Text " "]));
      [| |done].
    + cbn [mbind option_bind].
      case_decide; by rewrite !put_emit, !emit_emit, <- ?app_assoc.
    + intros j w2 Hj%elem_of_seqZ Hw2.
      rewrite (mget_square N M) by (done || lia). cbn [mbind option_bind].
      unfold put_double. rewrite Hw2. by rewrite !put_emit, emit_emit.
Qed.

(** X7: [printMatrix] on an N×N matrix, with [size] N, returns, changes
    nothing but the output, and shows the top-left corner of side
    min(N, maxDisplay): that many rows of that many numbers, each at the
    current precision of the stream, with the ellipses when N exceeds
    maxDisplay.  For N <= 0 it writes one empty line. *)
Theorem printMatrix_shows_corner name N maxDisplay (w : world) M :
  mem w !! name = Some M → square N M →
  printMatrix name N maxDisplay w
  = Some (emit (sample_rows M N maxDisplay (precision w)) w)
  ∧ count_numbers (sample_rows M N maxDisplay (precision w))
    = (Z.to_nat (Z.min N maxDisplay) * Z.to_nat (Z.min N maxDisplay))%nat
  ∧ (N ≤ 0 → 0 ≤ maxDisplay →
     sample_rows M N maxDisplay (precision w) = [Endl]).
Proof.
  intros Hm HM. split; [by apply printMatrix_emit|split].
  - unfold sample_rows. cbn zeta. rewrite !count_numbers_app.
    rewrite (count_numbers_bind _ _ (Z.to_nat (Z.min N maxDisplay))).
    + rewrite length_seqZ. case_decide; vm_compute count_numbers; lia.
    + intros i _. rewrite !count_numbers_app.
      rewrite (count_numbers_bind _ _ 1); [|done].
      rewrite length_seqZ.
      change (count_numbers [Text "   "]) with 0%nat.
      change (count_numbers [Endl]) with 0%nat.
      case_decide; [change (count_numbers [Text "..."]) with 0%nat
                   |change (count_numbers []) with 0%nat]; lia.
  - intros HN Hmax. unfold sample_rows. cbn zeta.
    rewrite (seqZ_nil 0 (Z.min N maxDisplay)) by lia.
    destruct (decide (maxDisplay < N)); [lia|]. reflexivity.
Qed.

Lemma printMatrix_shows_corner_witness :
  let w := world_of (pattern 7) (zeros 7) (zeros 7) in
  printMatrix "a" 7 5 w = Some (emit (sample_rows (pattern 7) 7 5 (precision w)) w)
  ∧ count_numbers (sample_rows (pattern 7) 7 5 (precision w))
    = (Z.to_nat (Z.min 7 5) * Z.to_nat (Z.min 7 5))%nat
  ∧ (7 ≤ 0 → 0 ≤ 5 → sample_rows (pattern 7) 7 5 (precision w) = [Endl]).
Proof.
  intros w.
  apply (printMatrix_shows_corner "a" 7 5 w (pattern 7));
    [by vm_compute | apply square_tabulate].
Defined.

(** * The report and the stream precision *)

Lemma report_rows_state s rs w :
  let w' := foldl (λ w r, report_row s r w) w rs in
  precision w' = (if rs is [] then precision w else 2%nat)
  ∧ mem w' = mem w ∧ stdin w' = stdin w ∧ ticks w' = ticks w.
Proof.
  revert w. induction rs as [|r rs IH]; intros w; [done|]. cbn [foldl].
  destruct (IH (report_row s r w)) as (Hp & Hm & Hs & Ht).
  cbn zeta. rewrite Hp, Hm, Hs, Ht. split; [|done].
  by destruct rs.
Qed.

(** X8: the report leaves the matrices alone and, as soon as the table has
    a row, leaves the precision of [cout] at 2: a matrix printed after the
    table shows its numbers with 2 decimals, whatever the precision was
    before. *)
Theorem report_leaves_precision_2 s rs name N (w : world) M :
  rs ≠ [] → mem w !! name = Some M → square N M →
  precision (report s rs w) = 2%nat
  ∧ mem (report s rs w) = mem w
  ∧ printMatrix name N 5 (report s rs w)
    = Some (emit (sample_rows M N 5 2) (report s rs w)).
Proof.
  intros Hrs Hm HM.
  assert (Hst : precision (report s rs w) = 2%nat ∧ mem (report s rs w) = mem w).
  { unfold report.
    destruct (report_rows_state s rs
                (put Endl (put (Text ("   -------" +:+ tab +:+ "---------"
                   +:+ tab +:+ "-------" +:+ tab +:+ tab +:+ "----------"))
                 (put Endl (put (Text ("   Threads" +:+ tab +:+ "Time (sec)"
                   +:+ tab +:+ "Speedup" +:+ tab +:+ tab +:+ "Efficiency"))
                 (put Endl (put (Text "   Results:") (put Endl w))))))))
      as (Hp & Hmem & _).
    cbn zeta in Hp, Hmem. split; [|exact Hmem].
    rewrite Hp. by destruct rs. }
  destruct Hst as [Hp Hmem]. split; [done|]. split; [done|].
  rewrite (printMatrix_emit name N 5 (report s rs w) M), Hp;
    [done|by rewrite Hmem|done].
Qed.

Lemma report_leaves_precision_2_witness :
  let w := setprecision 8 (world_of (pattern 2) (pattern 2) (zeros 2)) in
  let rs := [(1, {| timestamp := one; threads := 1 |})] in
  precision (report one rs w) = 2%nat
  ∧ mem (report one rs w) = mem w
  ∧ printMatrix "c" 2 5 (report one rs w)
    = Some (emit (sample_rows (zeros 2) 2 5 2) (report one rs w)).
Proof.
  intros w rs.
  apply (report_leaves_precision_2 one rs "c" 2 w (zeros 2));
    [by vm_compute | by vm_compute | apply square_zeros].
Defined.

(** * The blocked strategy outside its precondition *)

(** X9: with a negative block size the blocked strategy does no work: for
    N >= 0 it returns, whatever the thread count and whatever the store
    holds, and every matrix is as before. *)
Theorem blocked_negative_block_size_does_nothing E a b c N NEIB n w :
  NEIB < 0 → 0 ≤ N →
  ∃ r w',
    blockedMatrixMultiplication E a b c N NEIB n w = Some (r, w')
    ∧ mem w' = mem w ∧ threads r = n ∧ regions w' = regions w.
Proof.
  intros HNEIB HN. eexists _, _.
  split; [by apply blocked_negative|]. done.
Qed.

Lemma blocked_negative_block_size_does_nothing_witness :
  let w := world_of (pattern 4) (pattern 4) (zeros 4) in
  ∃ r w',
    blockedMatrixMultiplication sample_runtime "a" "b" "c" 4 (-2) 0 w
    = Some (r, w')
    ∧ mem w' = mem w ∧ threads r = 0 ∧ regions w' = regions w.
Proof.
  intros w.
  apply (blocked_negative_block_size_does_nothing sample_runtime
           "a" "b" "c" 4 (-2) 0 w); lia.
Defined.

Lemma region_bind_none {A B} T own iters (work : Z → list A)
    (f : A → list B) choose :
  (∀ q, q ∈ iters → work q ≫= f = []) →
  interleave choose (team T own iters work) ≫= f = [].
Proof.
  intros Hnil. unfold interleave.
  rewrite (interleave_from_bind f 0%nat); [|done|].
  - destruct (team _ _ _ _ !! 0%nat) as [l|] eqn:Hl; [|done]. simpl.
    apply team_lookup in Hl as [-> _]. unfold share. rewrite bind_assoc.
    apply bind_all_nil. intros q [_ Hq]%list_elem_of_filter. by apply Hnil.
  - intros t l _ [-> _]%team_lookup. unfold share. rewrite bind_assoc.
    apply bind_all_nil. intros q [_ Hq]%list_elem_of_filter. by apply Hnil.
Qed.

Lemma in_range_mono M N x : M ≤ N → in_range M x → in_range N x.
Proof. destruct x as [[i j] k]. unfold in_range. lia. Qed.

Section Partial.
Context (E : runtime) (a b c : string) (N : Z) (A B : matrix).
Hypothesis (Hca : c ≠ a) (Hcb : c ≠ b).
Hypothesis (HA : square N A) (HB : square N B).

(** The loop over the block rows, when the blocks cover the first
    [NB * NEIB] rows and columns of an N×N matrix. *)
Lemma blocked_rows_corner NB NEIB nThreads :
  0 < NEIB → 0 ≤ NB → NB * NEIB ≤ N → 0 < nThreads →
  ∀ ps w C,
  mem w !! a = Some A → mem w !! b = Some B → mem w !! c = Some C →
  square N C → (∀ p, p ∈ ps → 0 ≤ p < NB) →
  ∃ C', for_ ps (λ p, parallel_for E nThreads (seqZ 0 NB)
                        (block_work NB NEIB p) (mac a b c)) w
        = Some (advance (length ps) 0 (<[c := C']> (mem w)) w) ∧
        square N C' ∧
        ∀ i j, 0 ≤ i < N → 0 ≤ j < N →
          entry C' i j =
          foldl (accumulate A B i j) (entry C i j)
            (ps ≫= λ p, if decide (i ∈ seqZ (p * NEIB) NEIB ∧ j < NB * NEIB)
                        then seqZ 0 (NB * NEIB) else []).
Proof.
  intros HNEIB HNB HM HT ps.
  induction ps as [|p ps IH]; intros w C Ha Hb Hc HC Hps.
  - exists C. simpl. rewrite insert_id by done. by rewrite advance_id.
  - destruct (parallel_for_mac E a b c N A B Hca Hcb HA HB nThreads
                (seqZ 0 NB) (block_work NB NEIB p) w C Ha Hb Hc HC HT)
      as (C1 & Hpar & HC1 & Hent1).
    { intros q Hq%elem_of_seqZ.
      eapply Forall_impl; [apply block_work_in_range; [done| |lia]|].
      - apply Hps. by left.
      - intros x. by apply in_range_mono. }
    destruct (IH (advance 1 0 (<[c := C1]> (mem w)) w) C1)
      as (C' & Hfor & HC' & Hent).
    { simpl. by rewrite lookup_insert_ne. }
    { simpl. by rewrite lookup_insert_ne. }
    { simpl. by rewrite lookup_insert_eq. }
    { done. }
    { intros. apply Hps. by right. }
    exists C'. split; [|split; [done|]].
    + cbn [for_]. rewrite Hpar. simpl. rewrite Hfor. simpl.
      rewrite advance_advance, insert_insert_eq. f_equal. f_equal. lia.
    + intros i j Hi Hj. rewrite (Hent i j Hi Hj), Hent1, bind_cons, foldl_app.
      f_equal. f_equal.
      destruct (decide (j < NB * NEIB)) as [Hjm|Hjm].
      * assert (Hq0 : j `div` NEIB ∈ seqZ 0 NB).
        { apply elem_of_seqZ. split; [apply Z.div_pos; lia|].
          apply Z.div_lt_upper_bound; lia. }
        rewrite (region_bind_pick _ _ _ _ _ _ (j `div` NEIB));
          [|lia|apply NoDup_seqZ|done|].
        -- rewrite block_work_proj by lia.
           assert (Hj0 : j ∈ seqZ (j `div` NEIB * NEIB) NEIB).
           { apply elem_of_seqZ.
             pose proof (Z.mul_div_le j NEIB HNEIB).
             pose proof (Z.mul_succ_div_gt j NEIB HNEIB). lia. }
           repeat case_decide; tauto.
        -- intros q Hq Hne. rewrite block_work_proj by lia.
           rewrite decide_False; [done|]. intros [_ Hjq%elem_of_seqZ].
           apply Hne.
           apply (Z.div_unique_pos j NEIB q (j - q * NEIB)); lia.
      * rewrite decide_False by tauto.
        apply region_bind_none. intros q Hq%elem_of_seqZ.
        rewrite block_work_proj by lia.
        rewrite decide_False; [done|]. intros [_ Hjq%elem_of_seqZ]. nia.
Qed.

End Partial.

(** X10: called with a positive block size that need not divide N, the
    blocked strategy returns and works on whole blocks only: with
    M = (N / NEIB) * NEIB, the cells of the first M rows and columns get
    the products for k = 0 .. M-1 added, and the last N % NEIB rows and
    columns are left as they were.  The inputs are not changed. *)
Theorem blocked_covers_whole_blocks_only E a b c N NEIB n A B C0 w :
  c ≠ a → c ≠ b → 0 ≤ N → 0 < NEIB → 0 < n →
  square N A → square N B → square N C0 →
  mem w !! a = Some A → mem w !! b = Some B → mem w !! c = Some C0 →
  let M := N ÷ NEIB * NEIB in
  ∃ r w',
    blockedMatrixMultiplication E a b c N NEIB n w = Some (r, w')
    ∧ mem w' = <[c := accumulated_corner N M A B C0]> (mem w)
    ∧ M = N - Z.rem N NEIB
    ∧ (∀ i j, 0 ≤ i < N → 0 ≤ j < N →
         entry (accumulated_corner N M A B C0) i j
         = if decide (i < M ∧ j < M)
           then foldl (accumulate A B i j) (entry C0 i j) (seqZ 0 M)
           else entry C0 i j).
Proof.
  intros Hca Hcb HN HNEIB Hn HA HB HC Ha Hb Hc M.
  assert (HNB : 0 ≤ N ÷ NEIB) by (apply Z.quot_pos; lia).
  assert (HMeq : M = N - Z.rem N NEIB).
  { pose proof (Z.quot_rem' N NEIB). unfold M. lia. }
  assert (HMN : N ÷ NEIB * NEIB ≤ N).
  { pose proof (Z.rem_bound_pos N NEIB HN HNEIB). fold M. lia. }
  unfold blockedMatrixMultiplication, omp_get_wtime, cquot.
  rewrite !decide_False by lia. cbn [mbind option_bind].
  edestruct (blocked_rows_corner E a b c N A B Hca Hcb HA HB (N ÷ NEIB) NEIB n
               HNEIB HNB HMN Hn (seqZ 0 (N ÷ NEIB))
               (next_tick (log_call Blocked n c w)) C0)
    as (C' & -> & HC' & Hent); [exact Ha|exact Hb|exact Hc|exact HC| |].
  { by intros p Hp%elem_of_seqZ. }
  cbn [mbind option_bind]. eexists _, _. split; [done|].
  cbn [mem advance next_tick log_call].
  assert (Hcorner : ∀ i j, 0 ≤ i < N → 0 ≤ j < N →
            entry (accumulated_corner N M A B C0) i j
            = if decide (i < M ∧ j < M)
              then foldl (accumulate A B i j) (entry C0 i j) (seqZ 0 M)
              else entry C0 i j).
  { intros i j Hi Hj. unfold accumulated_corner. by rewrite entry_tabulate. }
  split; [|done].
  f_equal. apply (matrix_ext N); [done|apply square_tabulate|].
  intros i j Hi Hj. rewrite (Hent i j Hi Hj), Hcorner by done. fold M.
  destruct (decide (i < M)) as [HiM|HiM].
  - assert (Hi0 : i ∈ seqZ (i `div` NEIB * NEIB) NEIB).
    { apply elem_of_seqZ.
      pose proof (Z.mul_div_le i NEIB HNEIB).
      pose proof (Z.mul_succ_div_gt i NEIB HNEIB). lia. }
    rewrite (bind_pick _ (i `div` NEIB)).
    + repeat case_decide; tauto.
    + apply NoDup_seqZ.
    + apply elem_of_seqZ. split; [apply Z.div_pos; lia|].
      apply Z.div_lt_upper_bound; [lia|]. unfold M in HiM. lia.
    + intros p _ Hne. rewrite decide_False; [done|].
      intros [Hp%elem_of_seqZ _]. apply Hne.
      apply (Z.div_unique_pos i NEIB p (i - p * NEIB)); lia.
  - rewrite bind_all_nil.
    + rewrite decide_False by tauto. done.
    + intros p Hp%elem_of_seqZ. rewrite decide_False; [done|].
      intros [Hip%elem_of_seqZ _]. unfold M in HiM. nia.
Qed.

(** The case the check of [main] rejects: N=5, NEIB=2. *)
Lemma blocked_covers_whole_blocks_only_witness :
  let w := world_of (pattern 5) (pattern 5) (zeros 5) in
  let M := 5 ÷ 2 * 2 in
  ∃ r w',
    blockedMatrixMultiplication sample_runtime "a" "b" "c" 5 2 3 w
    = Some (r, w')
    ∧ mem w' = <["c" := accumulated_corner 5 M (pattern 5) (pattern 5)
                          (zeros 5)]> (mem w)
    ∧ M = 5 - Z.rem 5 2
    ∧ (∀ i j, 0 ≤ i < 5 → 0 ≤ j < 5 →
         entry (accumulated_corner 5 M (pattern 5) (pattern 5) (zeros 5)) i j
         = if decide (i < M ∧ j < M)
           then foldl (accumulate (pattern 5) (pattern 5) i j)
                  (entry (zeros 5) i j) (seqZ 0 M)
           else entry (zeros 5) i j).
Proof.
  intros w.
  apply (blocked_covers_whole_blocks_only sample_runtime "a" "b" "c" 5 2 3
           (pattern 5) (pattern 5) (zeros 5) w);
    try (by vm_compute); try lia; by apply squareb_spec.
Defined.

(** * Cost of a call: clock readings and parallel regions *)

(** X11: on N×N operands each strategy reads the clock exactly twice and
    reports their difference.  The blocked strategy opens one parallel
    region per block row (N / NEIB of them), the standard strategy one,
    the sequential strategy none; the sequential one reports 1 thread, the
    others the count they were given. *)
Theorem strategies_clock_and_regions E a b c N NEIB n A B C w :
  c ≠ a → c ≠ b → 0 ≤ N → 0 < NEIB → Z.rem N NEIB = 0 → 0 < n →
  square N A → square N B → square N C →
  mem w !! a = Some A → mem w !! b = Some B → mem w !! c = Some C →
  let elapsed := sub (wtime E (S (ticks w))) (wtime E (ticks w)) in
  ∃ w1 w2 w3,
    blockedMatrixMultiplication E a b c N NEIB n w
    = Some ({| timestamp := elapsed; threads := n |}, w1)
    ∧ standardMatrixMultiplication E a b c N n w
      = Some ({| timestamp := elapsed; threads := n |}, w2)
    ∧ sequentialMatrixMultiplication E a b c N w
      = Some ({| timestamp := elapsed; threads := 1 |}, w3)
    ∧ ticks w1 = (2 + ticks w)%nat ∧ ticks w2 = (2 + ticks w)%nat
    ∧ ticks w3 = (2 + ticks w)%nat
    ∧ regions w1 = (Z.to_nat (N ÷ NEIB) + regions w)%nat
    ∧ regions w2 = (1 + regions w)%nat
    ∧ regions w3 = regions w.
Proof.
  intros Hca Hcb HN HNEIB Hrem Hn HA HB HC Ha Hb Hc elapsed.
  eexists _, _, _.
  split; [by apply (blocked_spec E a b c N A B C)|].
  split; [by apply (standard_spec E a b c N A B C)|].
  split; [by apply (sequential_spec E a b c N A B C)|].
  done.
Qed.

Lemma strategies_clock_and_regions_witness :
  let w := world_of (pattern 4) (pattern 4) (zeros 4) in
  let elapsed := sub (wtime sample_runtime (S (ticks w)))
                     (wtime sample_runtime (ticks w)) in
  ∃ w1 w2 w3,
    blockedMatrixMultiplication sample_runtime "a" "b" "c" 4 2 3 w
    = Some ({| timestamp := elapsed; threads := 3 |}, w1)
    ∧ standardMatrixMultiplication sample_runtime "a" "b" "c" 4 3 w
      = Some ({| timestamp := elapsed; threads := 3 |}, w2)
    ∧ sequentialMatrixMultiplication sample_runtime "a" "b" "c" 4 w
      = Some ({| timestamp := elapsed; threads := 1 |}, w3)
    ∧ ticks w1 = (2 + ticks w)%nat ∧ ticks w2 = (2 + ticks w)%nat
    ∧ ticks w3 = (2 + ticks w)%nat
    ∧ regions w1 = (Z.to_nat (4 ÷ 2) + regions w)%nat
    ∧ regions w2 = (1 + regions w)%nat
    ∧ regions w3 = regions w.
Proof.
  intros w.
  apply (strategies_clock_and_regions sample_runtime "a" "b" "c" 4 2 3
           (pattern 4) (pattern 4) (zeros 4) w);
    try (by vm_compute); try lia; by apply squareb_spec.
Defined.

(** * Batch runs of [main] *)




(** X13: when constructing the matrices throws (N < 0, or not enough
    memory), a batch run that passed the divisibility check -- the method
    is not blocked, or N % NEIB is defined and 0 -- prints the message of
    the exception after the initial empty line and returns 0, the status
    of a successful run; no matrix exists and no strategy was called. *)
Theorem batch_exception_returns_zero E fuel N NEIB method specificThreads
    input :
  (to_short method = 1 →
   NEIB ≠ 0 ∧ ¬ (N = INT_MIN ∧ NEIB = -1) ∧ Z.rem N NEIB = 0) →
  N < 0 ∨ enough_memory E N = false →
  ∃ w,
    main E fuel (Batch N NEIB method specificThreads) input = Exit 0 w
    ∧ out w = [Endl;
               What (if decide (N < 0) then length_error else bad_alloc);
               Endl]
    ∧ calls w = [] ∧ mem w = ∅.
Proof.
  intros Hvalid Hbad. rewrite main_batch.
  rewrite experiment_throws; [by eexists|..|done].
  - intros Hm. by destruct (Hvalid Hm) as (? & _ & ?).
  - intros Hm. by destruct (Hvalid Hm) as (_ & ? & _).
Qed.

Lemma batch_exception_returns_zero_witness :
  ∃ w,
    main sample_runtime 1 (Batch (-4) 2 1 3) [] = Exit 0 w
    ∧ out w = [Endl;
               What (if decide (-4 < 0) then length_error else bad_alloc);
               Endl]
    ∧ calls w = [] ∧ mem w = ∅.
Proof.
  apply (batch_exception_returns_zero sample_runtime 1 (-4) 2 1 3 []).
  - intros _. split; [lia|]. split; [|reflexivity].
    unfold INT_MIN. lia.
  - left. lia.
Defined.

(** X14: a block size of 0 with the blocked method makes the check
    [N % NEIB] a division by zero: the behaviour of a batch run, of a turn
    of the prompt loop that reads such a triple, and of the blocked
    strategy itself is undefined.  With another method the check does not
    evaluate [N % NEIB]. *)
Theorem zero_block_size_is_undefined E N method :
  to_short method = 1 →
  (∀ fuel specificThreads input,
     main E fuel (Batch N 0 method specificThreads) input = Undefined)
  ∧ (∀ v w rest, stdin w = N :: 0 :: 1 :: rest → prompt v w = Crash)
  ∧ (∀ a b c n w, blockedMatrixMultiplication E a b c N 0 n w = None)
  ∧ (∀ m, m ≠ 1 → not_divisible m N 0 = Some false).
Proof.
  intros H1. split; [|split; [|split]].
  - intros. rewrite main_batch. unfold experiment, not_divisible, crem.
    by rewrite decide_True by done.
  - intros v w rest Hin. unfold prompt, cin. cbn [stdin put].
    rewrite Hin. cbn. done.
  - intros. unfold blockedMatrixMultiplication, cquot. done.
  - intros m Hm. unfold not_divisible. by rewrite decide_False.
Qed.

Lemma zero_block_size_is_undefined_witness :
  (∀ fuel specificThreads input,
     main sample_runtime fuel (Batch 4 0 1 specificThreads) input = Undefined)
  ∧ (∀ v w rest, stdin w = 4 :: 0 :: 1 :: rest → prompt v w = Crash)
  ∧ (∀ a b c n w,
       blockedMatrixMultiplication sample_runtime a b c 4 0 n w = None)
  ∧ (∀ m, m ≠ 1 → not_divisible m 4 0 = Some false).
Proof.
  apply (zero_block_size_is_undefined sample_runtime 4 1). reflexivity.
Defined.

Lemma single_run_ignores_block_size E method N NEIB NEIB' n w :
  method ≠ 1 →
  single_run E method N NEIB n w = single_run E method N NEIB' n w.
Proof.
  intros H1. unfold single_run.
  destruct (reset_result_matrix "c" N w) as [w0|]; [|done].
  cbn [mbind option_bind]. by rewrite !(decide_False (P := method = 1)).
Qed.

Lemma full_analysis_ignores_block_size E method N NEIB NEIB' w :
  method ≠ 1 →
  full_analysis E method N NEIB w = full_analysis E method N NEIB' w.
Proof.
  intros H1. unfold full_analysis.
  destruct (decide (method = 3)); [done|].
  apply for_ext. intros i [[s rs] w'] _. rewrite !sweep_step_eq.
  destruct (reset_result_matrix "c" N w') as [w0|]; [|done].
  cbn [mbind option_bind]. by rewrite !(decide_False (P := method = 1)).
Qed.

(** X15: the block size matters to the blocked method only: with any other
    method a batch run behaves the same for every value of NEIB (0 and
    values that do not divide N included). *)
Theorem block_size_only_matters_when_blocked E fuel N NEIB NEIB' method
    specificThreads input :
  to_short method ≠ 1 →
  main E fuel (Batch N NEIB method specificThreads) input
  = main E fuel (Batch N NEIB' method specificThreads) input.
Proof.
  intros H1. rewrite !main_batch.
  assert (experiment E true N NEIB (to_short method) specificThreads
            (started input)
          = experiment E true N NEIB' (to_short method) specificThreads
              (started input)) as ->; [|done].
  unfold experiment, not_divisible. rewrite !decide_False by done.
  destruct (vector_ctor E N); [done|].
  destruct (initializeMatrix E "a" N true _) as [wa|]; [|done].
  cbn [mbind option_bind].
  destruct (initializeMatrix E "b" N true _) as [wb|]; [|done].
  cbn [mbind option_bind].
  rewrite (single_run_ignores_block_size E _ N NEIB NEIB') by done.
  by rewrite (full_analysis_ignores_block_size E _ N NEIB NEIB').
Qed.

Lemma block_size_only_matters_when_blocked_witness :
  main sample_runtime 1 (Batch 5 0 2 3) []
  = main sample_runtime 1 (Batch 5 2 2 3) [].
Proof.
  apply (block_size_only_matters_when_blocked sample_runtime 1 5 0 2 2 3 []).
  vm_compute. lia.
Defined.

(** * The thread sweep *)

(** X16: a batch run with a thread count <= 0 (and a configuration as
    above) sweeps the thread counts: the selected strategy is called once
    for each of 1, 2, ..., 16 in this order (once, with 1 thread, for the
    sequential method), each call is entered with an all-zero output
    matrix, the table has one row per call in the same order, and [main]
    returns 0. *)
Theorem batch_sweep_runs_each_thread_count E fuel N NEIB method
    specificThreads input :
  specificThreads ≤ 0 → 0 ≤ N → enough_memory E N = true →
  (to_short method = 1 → NEIB ≠ 0 ∧ Z.rem N NEIB = 0) →
  let counts := if decide (to_short method = 3) then [1] else seqZ 1 16 in
  ∃ w rows,
    main E fuel (Batch N NEIB method specificThreads) input = Exit 0 w
    ∧ rows.*1 = counts
    ∧ out w = Endl :: report_header
                ++ (rows ≫= row_items (sub (wtime E 1) (wtime E 0)))
    ∧ calls w = clean_call N (selected (to_short method)) <$> counts.
Proof.
  intros Ht HN Hmem Hvalid counts.
  destruct (main_full_analysis E fuel N NEIB method specificThreads input
              Ht HN Hmem Hvalid) as (w & r1 & rs & Hmain & _ & Hc & Hout & Hw).
  exists w, ((1, r1) :: rs). split; [done|]. split; [done|].
  split; [|done]. by rewrite Hout, bind_cons.
Qed.

Lemma batch_sweep_runs_each_thread_count_witness :
  let counts := if decide (to_short 2 = 3) then [1] else seqZ 1 16 in
  ∃ w rows,
    main sample_runtime 1 (Batch 2 1 2 0) [] = Exit 0 w
    ∧ rows.*1 = counts
    ∧ out w = Endl :: report_header
                ++ (rows ≫= row_items (sub (wtime sample_runtime 1)
                                          (wtime sample_runtime 0)))
    ∧ calls w = clean_call 2 (selected (to_short 2)) <$> counts.
Proof.
  apply (batch_sweep_runs_each_thread_count sample_runtime 1 2 1 2 0 []);
    [lia|lia|reflexivity|]. intros H. by vm_compute in H.
Defined.

(** * Symmetry of the comparison *)

Lemma abs_normalize_opp m e :
  SFabs (binary_normalize prec emax (- m) e false)
  = SFabs (binary_normalize prec emax m e false).
Proof.
  destruct m as [|p|p]; [done| |];
    [change (- Z.pos p) with (Z.neg p)|change (- Z.neg p) with (Z.pos p)];
    unfold binary_normalize, binary_round, binary_round_aux;
    destruct (shl_align _ _ _) as [mz ez];
    destruct (shr_fexp _ _ _ _ _) as [mrs' e'];
    destruct (shr_fexp _ _ _ _ _) as [mrs'' e''];
    destruct (shr_m mrs''); try done;
    by destruct (Z.leb _ _).
Qed.

Lemma abs_sub_swap x y : SFabs (sub x y) = SFabs (sub y x).
Proof.
  destruct x as [[]|[]| |sx mx ex], y as [[]|[]| |sy my ey]; try done.
  unfold sub, SFsub. cbv zeta.
  change IntDef.Z.min with Z.min. rewrite (Z.min_comm ey ex).
  rewrite <- abs_normalize_opp. f_equal. f_equal. lia.
Qed.

Lemma differ_swap x y : differ x y = differ y x.
Proof. unfold differ. by rewrite abs_sub_swap. Qed.

Lemma for_return_ext {A R} (l : list A) (f g : A → option (option R)) :
  (∀ x, x ∈ l → f x = g x) → for_return l f = for_return l g.
Proof.
  induction l as [|x l IH]; intros H; [done|]. simpl.
  rewrite H by left. destruct (g x) as [[r|]|]; try done.
  apply IH. intros. apply H. by right.
Qed.

(** X17: [verifyResult] is symmetric: for any two matrices and any size it
    behaves the same with its two matrix arguments exchanged (the same
    verdict, or undefined behaviour in both orders). *)
Theorem verifyResult_symmetric (c1 c2 : matrix) (size : Z) :
  verifyResult c1 c2 size = verifyResult c2 c1 size.
Proof.
  unfold verifyResult. f_equal.
  apply for_return_ext. intros i _. apply for_return_ext. intros j _.
  destruct (mget c1 i j) as [x|], (mget c2 i j) as [y|]; try done.
  cbn [mbind option_bind]. by rewrite differ_swap.
Qed.

(** * A size larger than the matrices *)

Lemma mget_outside M (m : matrix) i j :
  square M m → ¬ (0 ≤ i < M ∧ 0 ≤ j < M) → mget m i j = None.
Proof.
  intros [Hlen Hrows] Hout. unfold mget. case_decide as Hpos; [|done].
  destruct (m !! Z.to_nat i) as [row|] eqn:Hrow; [|done].
  cbn [mbind option_bind].
  pose proof (lookup_lt_Some _ _ _ Hrow) as Hi.
  rewrite Forall_lookup in Hrows. specialize (Hrows _ _ Hrow).
  apply lookup_ge_None. lia.
Qed.

Section Outside.
Context (a b c : string) (M : Z) (A B : matrix).
Hypothesis (Hca : c ≠ a) (Hcb : c ≠ b).
Hypothesis (HA : square M A) (HB : square M B).

Lemma mac_outside (m : store) C i j k :
  m !! a = Some A → m !! b = Some B → m !! c = Some C →
  ¬ in_range M (i, j, k) → mac a b c (i, j, k) m = None.
Proof.
  intros Ha Hb Hc Hout. unfold mac. rewrite Ha, Hb, Hc.
  cbn [mbind option_bind]. unfold in_range in Hout.
  destruct (decide (0 ≤ i < M ∧ 0 ≤ k < M)) as [Hik|Hik].
  - rewrite (mget_square M A) by (done || lia). cbn [mbind option_bind].
    rewrite (mget_outside M B) by (done || lia). done.
  - by rewrite (mget_outside M A).
Qed.

Lemma for_mac_outside (l : list action) x :
  x ∈ l → ¬ in_range M x →
  ∀ (m : store) C,
  m !! a = Some A → m !! b = Some B → m !! c = Some C → square M C →
  for_ l (mac a b c) m = None.
Proof.
  intros Hx Hout. induction l as [|[[i j] k] l IH]; intros m C Ha Hb Hc HC.
  - by apply elem_of_nil in Hx.
  - cbn [for_].
    destruct (decide (0 ≤ i < M ∧ 0 ≤ j < M ∧ 0 ≤ k < M)) as [Hin|Hnot].
    + destruct (mac_step a b c M A B HA HB m C i j k Ha Hb Hc HC Hin)
        as (C1 & -> & HC1 & _).
      cbn [mbind option_bind]. apply (IH) with C1.
      * apply elem_of_cons in Hx as [->|Hx]; [|done]. by destruct Hout.
      * by rewrite lookup_insert_ne.
      * by rewrite lookup_insert_ne.
      * by rewrite lookup_insert_eq.
      * done.
    + by rewrite (mac_outside m C).
Qed.

Lemma parallel_for_outside E nThreads iters work q x w C :
  mem w !! a = Some A → mem w !! b = Some B → mem w !! c = Some C →
  square M C → q ∈ iters → x ∈ work q → ¬ in_range M x →
  parallel_for E nThreads iters work (mac a b c) w = None.
Proof.
  intros Ha Hb Hc HC Hq Hx Hout. unfold parallel_for.
  case_decide as Hn; [done|]. unfold lift. cbn [mem next_region].
  rewrite (for_mac_outside _ x) with (C := C); try done.
  unfold interleave. rewrite interleave_from_perm by done.
  rewrite team_concat_perm by lia.
  apply list_elem_of_bind. by exists q.
Qed.

End Outside.

(** X18: a size beyond the matrices is undefined behaviour for every
    strategy: called with N > M on M×M matrices (N a multiple of the
    positive block size for the blocked one), under every schedule some
    access [a[i][k]], [b[k][j]] or [c[i][j]] is out of range. *)
Theorem strategies_undefined_beyond_matrix_size E a b c M N NEIB n A B C w :
  c ≠ a → c ≠ b → 0 ≤ M < N → 0 < NEIB → Z.rem N NEIB = 0 → 0 < n →
  square M A → square M B → square M C →
  mem w !! a = Some A → mem w !! b = Some B → mem w !! c = Some C →
  blockedMatrixMultiplication E a b c N NEIB n w = None
  ∧ standardMatrixMultiplication E a b c N n w = None
  ∧ sequentialMatrixMultiplication E a b c N w = None.
Proof.
  intros Hca Hcb HM HNEIB Hrem Hn HA HB HC Ha Hb Hc.
  assert (HNB : N = N ÷ NEIB * NEIB).
  { pose proof (Z.quot_rem' N NEIB). lia. }
  assert (0 < N ÷ NEIB) as HNBpos by nia.
  split; [|split].
  - unfold blockedMatrixMultiplication, cquot, omp_get_wtime.
    rewrite !decide_False by lia. cbn [mbind option_bind].
    rewrite (seqZ_cons 0 (N ÷ NEIB)) by lia. cbn [for_].
    rewrite (parallel_for_outside a b c M A B Hca Hcb HA HB E n _ _
               (N ÷ NEIB - 1) (0, N - 1, 0) _ C); try done.
    + rewrite <- seqZ_cons by lia. apply elem_of_seqZ. lia.
    + apply elem_of_block_work. exists 0. nia.
    + unfold in_range. lia.
  - unfold standardMatrixMultiplication, omp_get_wtime.
    rewrite (parallel_for_outside a b c M A B Hca Hcb HA HB E n _ _
               M (M, 0, 0) _ C); try done.
    + apply elem_of_seqZ. lia.
    + unfold row_work. apply list_elem_of_bind. exists 0.
      split; [|apply elem_of_seqZ; lia].
      apply list_elem_of_bind. exists 0.
      split; [by left|apply elem_of_seqZ; lia].
    + unfold in_range. lia.
  - unfold sequentialMatrixMultiplication, omp_get_wtime.
    rewrite (for_nest3 (seqZ 0 N) (seqZ 0 N) (seqZ 0 N)
               (λ x, lift (mac a b c x))).
    rewrite for_lift. unfold lift. cbn [mem next_tick log_call].
    rewrite (for_mac_outside a b c M A B Hca Hcb HA HB _ (M, 0, 0))
      with (C := C); try done.
    + apply list_elem_of_bind. exists M. split; [|apply elem_of_seqZ; lia].
      apply list_elem_of_bind. exists 0. split; [|apply elem_of_seqZ; lia].
      apply list_elem_of_bind. exists 0.
      split; [by left|apply elem_of_seqZ; lia].
    + unfold in_range. lia.
Qed.

Lemma strategies_undefined_beyond_matrix_size_witness :
  let w := world_of (pattern 2) (pattern 2) (zeros 2) in
  blockedMatrixMultiplication sample_runtime "a" "b" "c" 4 2 3 w = None
  ∧ standardMatrixMultiplication sample_runtime "a" "b" "c" 4 3 w = None
  ∧ sequentialMatrixMultiplication sample_runtime "a" "b" "c" 4 w = None.
Proof.
  intros w.
  apply (strategies_undefined_beyond_matrix_size sample_runtime "a" "b" "c"
           2 4 2 3 (pattern 2) (pattern 2) (zeros 2) w);
    try (by vm_compute); try lia; by apply squareb_spec.
Defined.

Lemma for_return_app {A R} (l1 l2 : list A) (body : A → option (option R)) :
  for_return (l1 ++ l2) body
  = match for_return l1 body with
    | Some None => for_return l2 body
    | r => r
    end.
Proof.
  induction l1 as [|x l1 IH]; [done|]. simpl.
  by destruct (body x) as [[r|]|].
Qed.

(** X19: [verifyResult] with a size beyond the matrices: on M×M matrices and
    size > M it returns false when two cells of the first row differ by
    more than epsilon, and otherwise reads past the end of that row, which
    is undefined behaviour; it never returns true. *)
Theorem verifyResult_beyond_matrix_size M size (c1 c2 : matrix) :
  square M c1 → square M c2 → 0 ≤ M < size →
  verifyResult c1 c2 size
  = if existsb (λ j, differ (entry c1 0 j) (entry c2 0 j)) (seqZ 0 M)
    then Some false else None.
Proof.
  intros H1 H2 HM. unfold verifyResult.
  rewrite (seqZ_cons 0 size) at 1 by lia. cbn [for_return].
  replace (seqZ 0 size) with (seqZ 0 M ++ seqZ M (size - M)).
  2:{ replace size with (M + (size - M)) at 2 by lia.
      by rewrite seqZ_app by lia. }
  rewrite for_return_app.
  rewrite (for_return_test (seqZ 0 M) _
             (λ j, differ (entry c1 0 j) (entry c2 0 j)) false).
  - destruct (existsb _ _); [done|].
    rewrite (seqZ_cons M (size - M)) by lia. cbn [for_return].
    rewrite (mget_outside M c1) by (done || lia). done.
  - intros j Hj%elem_of_seqZ.
    rewrite (mget_square M c1), (mget_square M c2) by (done || lia).
    cbn [mbind option_bind]. by destruct (differ _ _).
Qed.

Lemma verifyResult_beyond_matrix_size_witness :
  verifyResult (pattern 2) (pattern 2) 3
  = if existsb (λ j, differ (entry (pattern 2) 0 j) (entry (pattern 2) 0 j))
         (seqZ 0 2)
    then Some false else None.
Proof.
  apply (verifyResult_beyond_matrix_size 2 3);
    [apply square_tabulate|apply square_tabulate|lia].
Defined.
